(** * A breadth-first simulator of nondeterministic Turing machines

    Shallow embedding of [ntm_isadurni.py]: the csv loader [read_ntm], the
    level-by-level simulator [simulate_ntm] and [print_tree].

    Python values are modelled as follows.
    - [str] is [string], its characters [ascii]; a tape (a Python list of
      one-character strings that may receive an arbitrary [tape_write]
      string in one cell) is [list string]; [list(s)] is [list_of_str] and
      ["".join(l)] is [join].
    - [int] is [Z] where it can be negative ([max_steps], [new_head]) and
      [nat] for counters and lengths.
    - the local variables of [simulate_ntm] are the record [Locals], passed
      explicitly; [new_head] is [None] while the name is unbound.
    - [print] appends a [Line] to [stdout].
    - an exception is [Raise] (the lines printed before it are not kept);
      the [while] loop takes a fuel argument and [simulate_ntm] provides
      enough of it: [None] never comes out of it. *)

From stdpp Require Import base decidable option list numbers strings relations.

Local Open Scope Z_scope.
Local Open Scope nat_scope.
#[local] Set Warnings "-clear-no-such-hyp".

(** ** Exceptions *)

Inductive PyError : Type :=
  | StopIteration
  | IndexError
  | ValueError
  | UnboundLocalError.

Inductive Exc (A : Type) : Type :=
  | Return (a : A)
  | Raise (e : PyError).
Arguments Return {A} a.
Arguments Raise {A} e.

Definition bind {A B : Type} (f : A -> Exc B) (m : Exc A) : Exc B :=
  match m with
  | Return a => f a
  | Raise e => Raise e
  end.

#[global] Instance Exc_bind : MBind Exc := @bind.

(** ** Strings and tapes *)

(** [list(s)]: the characters of [s], each a string of length one. *)
Fixpoint list_of_str (s : string) : list string :=
  match s with
  | EmptyString => []
  | String c s' => String c EmptyString :: list_of_str s'
  end.

(** ["".join(l)] *)
Fixpoint join (l : list string) : string :=
  match l with
  | [] => ""
  | x :: l' => x +:+ join l'
  end.

(** Truth value of a [str] used as a condition. *)
Definition truthy (s : string) : bool := bool_decide (s ≠ "").

(** ** The machine description *)

Record Transition : Type := mkTransition {
  current_state : string;
  input_char : string;
  next_state : string;
  tape_write : string;
  head_move : string
}.

Record Automata : Type := mkAutomata {
  machine_name : string;
  state_names : list string;
  sigma : list string;
  gamma : list string;
  start_state : string;
  accept_state : string;
  reject_state : string;
  transitions : list Transition
}.

(** ** [read_ntm], over the rows that [csv.reader] yields *)

Definition next_row (reader : list (list string))
  : Exc (list string * list (list string)) :=
  match reader with
  | [] => Raise StopIteration
  | row :: rest => Return (row, rest)
  end.

Definition item0 (row : list string) : Exc string :=
  match row with
  | [] => Raise IndexError
  | x :: _ => Return x
  end.

(** [current_state, input_char, next_state, tape_write, head_move = row] *)
Definition unpack_row (row : list string) : Exc Transition :=
  match row with
  | [cs; ic; ns; tw; hm] => Return (mkTransition cs ic ns tw hm)
  | _ => Raise ValueError
  end.

Fixpoint read_rows (reader : list (list string)) : Exc (list Transition) :=
  match reader with
  | [] => Return []
  | row :: rest =>
      t ← unpack_row row;
      ts ← read_rows rest;
      Return (t :: ts)
  end.

Definition read_ntm (reader : list (list string)) : Exc Automata :=
  '(r1, reader) ← next_row reader; name ← item0 r1;
  '(names, reader) ← next_row reader;
  '(sig, reader) ← next_row reader;
  '(gam, reader) ← next_row reader;
  '(r5, reader) ← next_row reader; start ← item0 r5;
  '(r6, reader) ← next_row reader; accept ← item0 r6;
  '(r7, reader) ← next_row reader; reject ← item0 r7;
  ts ← read_rows reader;
  Return (mkAutomata name names sig gam start accept reject ts).

(** ** Configurations and printed lines *)

(** [[left_of_head, state, right_of_head]] *)
Record Config : Type := mkConfig {
  left_of_head : string;
  state : string;
  right_of_head : string
}.

Inductive Line : Type :=
  | NameOfMachine (name : string)
  | InitialString (s : string)
  | TotalTransitions (n : nat)
  | StringAccepted (depth : nat)
  | StringRejected (depth : nat)
  | ExecutionStopped (max_steps : Z)
  | TreeOfConfigurations
  | DepthLine (depth : nat) (level : list Config).

(** ** The local variables of [simulate_ntm] *)

Record Locals : Type := mkLocals {
  tree : list (list Config);
  total_transitions : nat;
  accept_count : nat;
  reject_count : nat;
  depth : nat;
  new_head : option Z;
  next_level : list Config;
  stdout : list Line
}.

Definition set_tree (v : list (list Config)) (st : Locals) : Locals :=
  mkLocals v (total_transitions st) (accept_count st) (reject_count st)
    (depth st) (new_head st) (next_level st) (stdout st).
Definition set_total_transitions (v : nat) (st : Locals) : Locals :=
  mkLocals (tree st) v (accept_count st) (reject_count st)
    (depth st) (new_head st) (next_level st) (stdout st).
Definition set_accept_count (v : nat) (st : Locals) : Locals :=
  mkLocals (tree st) (total_transitions st) v (reject_count st)
    (depth st) (new_head st) (next_level st) (stdout st).
Definition set_reject_count (v : nat) (st : Locals) : Locals :=
  mkLocals (tree st) (total_transitions st) (accept_count st) v
    (depth st) (new_head st) (next_level st) (stdout st).
Definition set_depth (v : nat) (st : Locals) : Locals :=
  mkLocals (tree st) (total_transitions st) (accept_count st) (reject_count st)
    v (new_head st) (next_level st) (stdout st).
Definition set_new_head (v : option Z) (st : Locals) : Locals :=
  mkLocals (tree st) (total_transitions st) (accept_count st) (reject_count st)
    (depth st) v (next_level st) (stdout st).
Definition set_next_level (v : list Config) (st : Locals) : Locals :=
  mkLocals (tree st) (total_transitions st) (accept_count st) (reject_count st)
    (depth st) (new_head st) v (stdout st).
Definition print (l : list Line) (st : Locals) : Locals :=
  mkLocals (tree st) (total_transitions st) (accept_count st) (reject_count st)
    (depth st) (new_head st) (next_level st) (stdout st ++ l).

(** ** [print_tree] *)

Definition print_tree (t : list (list Config)) (st : Locals) : Locals :=
  print (TreeOfConfigurations :: imap DepthLine t) st.

(** ** [simulate_ntm] *)

(** The condition of line 91,
    [t['current_state'] == state and
       (t['input_char'] == tape[head] if head < len(tape) else "_")]:
    the conditional expression is the whole right operand of [and], so out of
    bounds that operand is the string ["_"] itself. *)
Definition matches (t : Transition) (q : string) (tape : list string)
    (head : nat) : bool :=
  bool_decide (current_state t = q)
  && (if bool_decide (head < length tape)
      then bool_decide (tape !! head = Some (input_char t))
      else truthy "_").

(** Lines 95-100: the copy of the tape with the cell under the head written. *)
Definition write_cell (t : Transition) (tape : list string) (head : nat)
  : list string :=
  if bool_decide (head < length tape)
  then <[head := tape_write t]> tape
  else tape ++ [tape_write t].

(** Lines 102-108. No branch assigns [new_head] for another move symbol: the
    name keeps the value of the last transition applied in this call, and
    reading it at line 111 raises when there was none. *)
Definition move_head (t : Transition) (head : nat) (stale : option Z)
  : Exc Z :=
  if bool_decide (head_move t = "R") then Return (Z.of_nat head + 1)%Z
  else if bool_decide (head_move t = "L") then Return (Z.of_nat head - 1)%Z
  else if bool_decide (head_move t = "S") then Return (Z.of_nat head)
  else match stale with
       | Some h => Return h
       | None => Raise UnboundLocalError
       end.

(** Lines 110-115: the tape and the head after the bounds checks. *)
Definition fit_bounds (new_tape : list string) (h : Z) : list string * Z :=
  let '(new_tape, h) :=
    if bool_decide (h < 0)%Z then ("_" :: new_tape, 0%Z) else (new_tape, h) in
  let new_tape :=
    if bool_decide (Z.of_nat (length new_tape) ≤ h)%Z
    then new_tape ++ ["_"] else new_tape in
  (new_tape, h).

(** Lines 95-122 without the counters: the configuration a transition
    produces, and the new value of [new_head] (never negative at the slices
    of lines 118-119). *)
Definition successor (t : Transition) (tape : list string) (head : nat)
    (stale : option Z) : Exc (Config * Z) :=
  let new_tape := write_cell t tape head in
  h ← move_head t head stale;
  let '(new_tape, h) := fit_bounds new_tape h in
  Return (mkConfig (join (take (Z.to_nat h) new_tape))
                   (next_state t)
                   (join (drop (Z.to_nat h) new_tape)), h).

(** Lines 93-122. *)
Definition apply_transition (t : Transition) (tape : list string) (head : nat)
    (st : Locals) : Exc Locals :=
  let st := set_total_transitions (total_transitions st + 1) st in
  '(c, h) ← successor t tape head (new_head st);
  Return (set_next_level (next_level st ++ [c]) (set_new_head (Some h) st)).

(** Lines 90-122: [for transition in transitions]. *)
Fixpoint for_transitions (ts : list Transition) (q : string)
    (tape : list string) (head : nat) (st : Locals) : Exc Locals :=
  match ts with
  | [] => Return st
  | t :: ts' =>
      if matches t q tape head
      then st' ← apply_transition t tape head st;
           for_transitions ts' q tape head st'
      else for_transitions ts' q tape head st
  end.

(** Lines 75-122: the body of the loop over the current level. *)
Definition visit (a : Automata) (c : Config) (st : Locals) : Exc Locals :=
  let tape := list_of_str (left_of_head c +:+ right_of_head c) in
  let head := String.length (left_of_head c) in
  if bool_decide (state c = accept_state a)
  then Return (set_accept_count (accept_count st + 1) st)
  else if bool_decide (state c = reject_state a)
  then Return (set_next_level
                 (next_level st
                    ++ [mkConfig (left_of_head c) (state c) (right_of_head c)])
                 (set_reject_count (reject_count st + 1) st))
  else for_transitions (transitions a) (state c) tape head st.

(** Lines 74-122: [for left_of_head, state, right_of_head in current_level]. *)
Fixpoint for_configs (a : Automata) (level : list Config) (st : Locals)
  : Exc Locals :=
  match level with
  | [] => Return st
  | c :: level' => st' ← visit a c st; for_configs a level' st'
  end.

(** How one pass through the body of the [while] loop ends. *)
Inductive Flow : Type :=
  | Continue (st : Locals)
  | Returned (st : Locals).

(** Lines 71-135: the body of the [while] loop. *)
Definition iteration (a : Automata) (st : Locals) : Exc Flow :=
  match last (tree st) with
  | None => Raise IndexError
  | Some current_level =>
      st ← for_configs a current_level (set_next_level [] st);
      match next_level st with
      | [] =>
          let st := print [TotalTransitions (total_transitions st)] st in
          let st :=
            match accept_count st with
            | O => print [StringRejected (depth st)] st
            | S _ => print [StringAccepted (depth st)] st
            end in
          Return (Returned (print_tree (tree st) st))
      | _ :: _ =>
          let st := set_tree (tree st ++ [next_level st]) st in
          Return (Continue (set_depth (depth st + 1) st))
      end
  end.

(** Lines 70-140: the [while] loop and what follows it. [None] is lack of
    fuel. *)
Fixpoint while_loop (fuel : nat) (a : Automata) (max_steps : Z) (st : Locals)
  : option (Exc Locals) :=
  match fuel with
  | O => None
  | S fuel' =>
      if bool_decide (Z.of_nat (depth st) < max_steps)%Z
      then match iteration a st with
           | Raise e => Some (Raise e)
           | Return (Returned st') => Some (Return st')
           | Return (Continue st') => while_loop fuel' a max_steps st'
           end
      else
        let st := print_tree (tree st) st in
        let st := print [ExecutionStopped max_steps] st in
        Some (Return (print [TotalTransitions (total_transitions st)] st))
  end.

(** Lines 46-67: the state on entry to the [while] loop. *)
Definition initial_config (a : Automata) (input_string : string) : Config :=
  mkConfig "" (start_state a) (join (list_of_str input_string)).

Definition initial_locals (a : Automata) (input_string : string) : Locals :=
  let st := mkLocals [] 0 0 0 0 None [] [] in
  let st := set_tree (tree st ++ [[initial_config a input_string]]) st in
  print [InitialString input_string] (print [NameOfMachine (machine_name a)] st).

Definition default_max_steps : Z := 100%Z.

Definition simulate_ntm_fuel (fuel : nat) (a : Automata)
    (input_string : string) (max_steps : option Z) : option (Exc (list Line)) :=
  let k := default default_max_steps max_steps in
  match while_loop fuel a k (initial_locals a input_string) with
  | None => None
  | Some (Raise e) => Some (Raise e)
  | Some (Return st) => Some (Return (stdout st))
  end.

(** The loop runs at most [max_steps] times, then leaves on its condition. *)
Definition simulate_ntm (a : Automata) (input_string : string)
    (max_steps : option Z) : option (Exc (list Line)) :=
  let k := default default_max_steps max_steps in
  simulate_ntm_fuel (S (Z.to_nat k)) a input_string max_steps.

(** * Vocabulary of the statements *)

(** The characters to the right of the head cell. *)
Definition after_head (right : string) : string :=
  match right with
  | EmptyString => ""
  | String _ r => r
  end.

(** [st'] differs from [st] by work done inside one level: counters grew and
    configurations were appended to [next_level]. *)
Record grows (st st' : Locals) : Prop := mkGrows {
  grows_tree : tree st' = tree st;
  grows_depth : depth st' = depth st;
  grows_stdout : stdout st' = stdout st;
  grows_total : total_transitions st ≤ total_transitions st';
  grows_accept : accept_count st ≤ accept_count st';
  grows_next : ∃ l, next_level st' = next_level st ++ l
}.

(** What the loop prints when it leaves on its condition. *)
Definition stopped (max_steps : Z) (st : Locals) : Locals :=
  let st := print_tree (tree st) st in
  let st := print [ExecutionStopped max_steps] st in
  print [TotalTransitions (total_transitions st)] st.

(** One pass through the body that reaches the end of the body. *)
Definition step (a : Automata) (max_steps : Z) (st st' : Locals) : Prop :=
  (Z.of_nat (depth st) < max_steps)%Z ∧ iteration a st = Return (Continue st').

(** How the call ends from a state at the head of the loop. *)
Definition ends (a : Automata) (max_steps : Z) (st fin : Locals) : Prop :=
  (¬ (Z.of_nat (depth st) < max_steps)%Z ∧ fin = stopped max_steps st)
  ∨ ((Z.of_nat (depth st) < max_steps)%Z
     ∧ iteration a st = Return (Returned fin)).

(** The lines printed when the next level is empty. *)
Definition verdict_line (st : Locals) : Line :=
  match accept_count st with
  | O => StringRejected (depth st)
  | S _ => StringAccepted (depth st)
  end.

(** The two lines printed before the loop. *)
Definition header (a : Automata) (input_string : string) : list Line :=
  [NameOfMachine (machine_name a); InitialString input_string].

(** What holds of the locals each time the loop condition is tested. *)
Record Inv (a : Automata) (input_string : string) (k : Z) (st : Locals)
  : Prop := mkInv {
  inv_length : length (tree st) = S (depth st);
  inv_stdout : stdout st = header a input_string;
  inv_bound : (Z.of_nat (depth st) ≤ Z.max 0 k)%Z;
  (** the accepting configurations of the levels already visited were
      counted *)
  inv_accept : ∀ i level c,
    tree st !! i = Some level → i < depth st →
    c ∈ level → state c = accept_state a →
    0 < accept_count st;
  (** a rejecting configuration stays in all later levels *)
  inv_reject : ∀ i j level level' c,
    tree st !! i = Some level → tree st !! j = Some level' → i ≤ j →
    c ∈ level → state c ≠ accept_state a → state c = reject_state a →
    c ∈ level'
}.

(** The loop left on its condition with the locals [st]. *)
Definition stopped_output (a : Automata) (s : string) (k : Z) (st : Locals)
    (out : list Line) : Prop :=
  ¬ (Z.of_nat (depth st) < k)%Z ∧
  out = header a s
        ++ (TreeOfConfigurations :: imap DepthLine (tree st))
        ++ [ExecutionStopped k; TotalTransitions (total_transitions st)].

(** The loop was entered with the locals [st], and visiting the last level
    gave the locals [st1] with an empty next level. *)
Definition halted_output (a : Automata) (s : string) (k : Z)
    (st st1 : Locals) (out : list Line) : Prop :=
  (Z.of_nat (depth st) < k)%Z ∧
  (∃ current_level,
     tree st !! depth st = Some current_level ∧
     for_configs a current_level (set_next_level [] st) = Return st1) ∧
  next_level st1 = [] ∧
  out = header a s
        ++ [TotalTransitions (total_transitions st1); verdict_line st1;
            TreeOfConfigurations]
        ++ imap DepthLine (tree st).

(** Machines whose move symbols are all known. *)
Definition known_move (t : Transition) : Prop :=
  head_move t = "R" ∨ head_move t = "L" ∨ head_move t = "S".

Definition well_formed (a : Automata) : Prop :=
  Forall known_move (transitions a).

(** ** Properties the specification words more strongly than the code allows *)


(** The claim C3 as it is worded, for one pass of the loop body. *)
Definition reject_config_forwarded (a : Automata) : Prop :=
  ∀ c st,
    state c = reject_state a →
    ∃ st', visit a c st = Return st'
           ∧ total_transitions st' = total_transitions st
           ∧ next_level st' = next_level st ++ [c].

(** The claim C4 as it is worded: a rejecting configuration in the trace
    leaves the step-bound message as the only verdict. *)
Definition reject_forces_step_bound (a : Automata) (s : string)
    (ms : option Z) : Prop :=
  ∀ out d level c,
    simulate_ntm a s ms = Some (Return out) →
    DepthLine d level ∈ out → c ∈ level → state c = reject_state a →
    ExecutionStopped (default default_max_steps ms) ∈ out
    ∧ (∀ D, StringAccepted D ∉ out)
    ∧ (∀ D, StringRejected D ∉ out).

(** The claim C6 as it is worded. *)
Definition empty_table_rejects_at_0 (a : Automata) (s : string)
    (ms : option Z) : Prop :=
  transitions a = [] → s ≠ "" →
  ∃ out, simulate_ntm a s ms = Some (Return out)
         ∧ StringRejected 0 ∈ out ∧ TotalTransitions 0 ∈ out.

(** The claim C8 as it is worded, for the depth: the depth a completed run
    ends at, which is the depth of the deepest level it prints, does not
    exceed [max_steps]. *)
Definition depth_within_max_steps (a : Automata) (s : string)
    (ms : option Z) : Prop :=
  ∀ out d level,
    simulate_ntm a s ms = Some (Return out) →
    DepthLine d level ∈ out →
    (∀ d' level', DepthLine d' level' ∈ out → d' ≤ d) →
    (Z.of_nat d ≤ default default_max_steps ms)%Z.

(** * Example machines *)

Definition single_rule : Automata :=
  mkAutomata "single" ["start"; "accept"; "reject"] ["a"] ["a"; "_"]
    "start" "accept" "reject"
    [mkTransition "start" "a" "accept" "a" "S"].

Definition no_rule_for_b : Automata :=
  mkAutomata "norule" ["start"; "accept"; "reject"] ["a"; "b"] ["a"; "b"; "_"]
    "start" "accept" "reject"
    [mkTransition "start" "a" "accept" "a" "S"].

Definition two_branches : Automata :=
  mkAutomata "branch" ["start"; "p"; "q"; "accept"; "reject"] ["a"] ["a"; "_"]
    "start" "accept" "reject"
    [mkTransition "start" "a" "p" "a" "R";
     mkTransition "start" "a" "q" "b" "L"].

(** A rule that reads ["a"], run on the empty input: the head is at the end
    of the empty tape. *)
Definition reads_a : Automata :=
  mkAutomata "reads_a" ["start"; "p"; "accept"; "reject"] ["a"] ["a"; "b"; "_"]
    "start" "accept" "reject"
    [mkTransition "start" "a" "p" "b" "R"].

(** One branch accepts at depth 1 while another lives one level longer. *)
Definition late_sibling : Automata :=
  mkAutomata "late" ["start"; "p"; "q"; "accept"; "reject"] ["a"] ["a"; "_"]
    "start" "accept" "reject"
    [mkTransition "start" "a" "accept" "a" "S";
     mkTransition "start" "a" "p" "a" "S";
     mkTransition "p" "a" "q" "a" "S"].

Definition late_sibling_output : list Line :=
  [NameOfMachine "late"; InitialString "a";
   TotalTransitions 3; StringAccepted 2;
   TreeOfConfigurations;
   DepthLine 0 [mkConfig "" "start" "a"];
   DepthLine 1 [mkConfig "" "accept" "a"; mkConfig "" "p" "a"];
   DepthLine 2 [mkConfig "" "q" "a"]].

(** The accept state and the reject state are the same state. *)
Definition one_halt_state : Automata :=
  mkAutomata "halt" ["start"; "halt"] ["a"] ["a"; "_"]
    "start" "halt" "halt"
    [mkTransition "start" "a" "halt" "a" "S"].

Definition one_halt_state_output : list Line :=
  [NameOfMachine "halt"; InitialString "a";
   TotalTransitions 1; StringAccepted 1;
   TreeOfConfigurations;
   DepthLine 0 [mkConfig "" "start" "a"];
   DepthLine 1 [mkConfig "" "halt" "a"]].

(** A machine that moves to its reject state at once. *)
Definition rejects_a : Automata :=
  mkAutomata "rejects_a" ["start"; "accept"; "reject"] ["a"] ["a"; "_"]
    "start" "accept" "reject"
    [mkTransition "start" "a" "reject" "a" "S"].

Definition rejects_a_output : list Line :=
  [NameOfMachine "rejects_a"; InitialString "a";
   TreeOfConfigurations;
   DepthLine 0 [mkConfig "" "start" "a"];
   DepthLine 1 [mkConfig "" "reject" "a"];
   DepthLine 2 [mkConfig "" "reject" "a"];
   DepthLine 3 [mkConfig "" "reject" "a"];
   ExecutionStopped 3; TotalTransitions 1].

(** No transition at all, and the start state accepts. *)
Definition accepts_at_once : Automata :=
  mkAutomata "trivial" ["start"; "reject"] ["a"] ["a"; "_"]
    "start" "start" "reject" [].

(** No transition at all, and the start state rejects. *)
Definition rejects_at_once : Automata :=
  mkAutomata "trivial" ["start"; "accept"] ["a"] ["a"; "_"]
    "start" "accept" "start" [].

(** No transition at all, three distinct states. *)
Definition no_rules : Automata :=
  mkAutomata "empty" ["start"; "accept"; "reject"] ["a"] ["a"; "_"]
    "start" "accept" "reject" [].

(** The second rule has the move symbol ["X"]. *)
Definition unknown_move : Automata :=
  mkAutomata "unknown" ["start"; "p"; "accept"; "reject"] ["a"] ["a"; "_"]
    "start" "accept" "reject"
    [mkTransition "start" "a" "start" "a" "R";
     mkTransition "start" "a" "p" "a" "X"].

(** The only rule has the move symbol ["X"]. *)
Definition unknown_move_first : Automata :=
  mkAutomata "unknown" ["start"; "p"; "accept"; "reject"] ["a"] ["a"; "_"]
    "start" "accept" "reject"
    [mkTransition "start" "a" "p" "a" "X"].

(** * Vocabulary of the further properties *)

(** ** The loader and [main] *)

(** The csv row of a transition rule. *)
Definition row_of (t : Transition) : list string :=
  [current_state t; input_char t; next_state t; tape_write t; head_move t].

(** The characters [str.strip()] removes, among the code points below 256:
    tab to carriage return, the four separators 28-31, the space, NEL and
    the no-break space. *)
Definition is_space (c : Ascii.ascii) : bool :=
  let n := Ascii.nat_of_ascii c in
  bool_decide (9 ≤ n ≤ 13 ∨ 28 ≤ n ≤ 32 ∨ n = 133 ∨ n = 160).

Fixpoint lstrip (s : string) : string :=
  match s with
  | EmptyString => ""
  | String c s' => if is_space c then lstrip s' else s
  end.

Fixpoint rstrip (s : string) : string :=
  match s with
  | EmptyString => ""
  | String c s' =>
      match rstrip s' with
      | EmptyString => if is_space c then "" else String c ""
      | r => String c r
      end
  end.

(** [s.strip()] *)
Definition strip (s : string) : string := rstrip (lstrip s).

(** Only characters that [strip] removes. *)
Fixpoint blank (s : string) : bool :=
  match s with
  | EmptyString => true
  | String c s' => is_space c && blank s'
  end.

(** Lines 151-155, from the rows [csv.reader] yields for the first file and
    the text [file.read()] returns for the second; the second file is read
    only when the first one loaded. Both files are taken as opened and read:
    the [IndexError] of [sys.argv[1]] and [sys.argv[2]] and the errors of
    [open] and [read] (lines 150, 152, 153) are not part of this model. *)
Definition main (reader : list (list string)) (text : string)
  : option (Exc (list Line)) :=
  match read_ntm reader with
  | Raise e => Some (Raise e)
  | Return automata => simulate_ntm automata (strip text) None
  end.

(** ** Configurations and rules *)

(** The tape and the head that lines 75-76 compute for a configuration. *)
Definition tape_of (c : Config) : list string :=
  list_of_str (left_of_head c +:+ right_of_head c).
Definition head_of (c : Config) : nat := String.length (left_of_head c).

(** The rules selected by line 91, in table order. *)
Definition selected (ts : list Transition) (q : string) (tape : list string)
    (head : nat) : list Transition :=
  filter (λ t, matches t q tape head = true) ts.

(** [c] is the configuration some call of [successor] gives for rule [t]. *)
Definition successor_of (tape : list string) (head : nat) (t : Transition)
    (c : Config) : Prop :=
  ∃ stale h, successor t tape head stale = Return (c, h).

(** The three ways the loop body treats a configuration. *)
Definition accepting (a : Automata) (c : Config) : Prop :=
  state c = accept_state a.
Definition copied (a : Automata) (c : Config) : Prop :=
  state c ≠ accept_state a ∧ state c = reject_state a.
Definition live (a : Automata) (c : Config) : Prop :=
  state c ≠ accept_state a ∧ state c ≠ reject_state a.

#[global] Instance accepting_dec (a : Automata) (c : Config)
  : Decision (accepting a c) := decide (state c = accept_state a).
#[global] Instance copied_dec (a : Automata) (c : Config)
  : Decision (copied a c) :=
  decide (state c ≠ accept_state a ∧ state c = reject_state a).
#[global] Instance live_dec (a : Automata) (c : Config)
  : Decision (live a c) :=
  decide (state c ≠ accept_state a ∧ state c ≠ reject_state a).

Definition count_accepting (a : Automata) (level : list Config) : nat :=
  length (filter (accepting a) level).
Definition count_copied (a : Automata) (level : list Config) : nat :=
  length (filter (copied a) level).

(** [c'] is a successor of the live configuration [c] by a selected rule. *)
Definition yields (a : Automata) (c c' : Config) : Prop :=
  live a c ∧
  ∃ t, t ∈ transitions a
       ∧ matches t (state c) (tape_of c) (head_of c) = true
       ∧ successor_of (tape_of c) (head_of c) t c'.

(** The configurations a chain of selected rules leads to from the initial
    one. *)
Inductive reachable (a : Automata) (s : string) : Config → Prop :=
  | reachable_initial : reachable a s (initial_config a s)
  | reachable_next c c' :
      reachable a s c → yields a c c' → reachable a s c'.

(** ** The printed trace *)

(** The levels of the [Depth d: ...] lines, in the order printed. *)
Definition levels (out : list Line) : list (list Config) :=
  omap (λ l, match l with DepthLine _ level => Some level | _ => None end) out.

(** What holds of the tree and the counters each time the loop condition is
    tested. *)
Record Trace_inv (a : Automata) (s : string) (st : Locals) : Prop :=
  mkTrace_inv {
  tinv_length : length (tree st) = S (depth st);
  tinv_first : tree st !! 0 = Some [initial_config a s];
  tinv_nonempty : Forall (λ level, level ≠ []) (tree st);
  tinv_accept :
    accept_count st
    = sum_list_with (count_accepting a) (take (depth st) (tree st));
  tinv_total :
    total_transitions st
    + sum_list_with (count_copied a) (take (depth st) (tree st))
    = sum_list_with length (drop 1 (tree st));
  tinv_reachable : Forall (Forall (reachable a s)) (tree st)
}.

(** ** Breadth-first search, as a function *)

(** The successor by rule [t], when the move of [t] is known. *)
Definition successor_config (t : Transition) (c : Config) : option Config :=
  match successor t (tape_of c) (head_of c) None with
  | Return (c', _) => Some c'
  | Raise _ => None
  end.

(** What a configuration puts in the next level. *)
Definition expand (a : Automata) (c : Config) : list Config :=
  if bool_decide (state c = accept_state a) then []
  else if bool_decide (state c = reject_state a) then [c]
  else omap (λ t, successor_config t c)
         (selected (transitions a) (state c) (tape_of c) (head_of c)).

(** The levels from [level] on: at most [n] more, and none after an empty
    expansion. *)
Fixpoint bfs (a : Automata) (n : nat) (level : list Config)
  : list (list Config) :=
  match n with
  | O => [level]
  | S n' =>
      match level ≫= expand a with
      | [] => [level]
      | next => level :: bfs a n' next
      end
  end.

Definition Bfs_inv (a : Automata) (s : string) (st : Locals) : Prop :=
  ∃ pre cur,
    tree st = pre ++ [cur]
    ∧ ∀ n, bfs a (length pre + n) [initial_config a s] = pre ++ bfs a n cur.

(** ** Unbound [new_head] *)

(** Nothing in the way of [UnboundLocalError]: [new_head] is bound, or the
    last level holds no live configuration. *)
Definition safe (a : Automata) (st : Locals) : Prop :=
  is_Some (new_head st)
  ∨ ∀ cur c, last (tree st) = Some cur → c ∈ cur → ¬ live a c.

(** The first rule selected for the initial configuration, when its move is
    not known: the one case in which the call raises. *)
Definition first_rule_unknown (a : Automata) (s : string) : Prop :=
  start_state a ≠ accept_state a
  ∧ start_state a ≠ reject_state a
  ∧ ∃ t rest,
      selected (transitions a) (start_state a) (list_of_str s) 0 = t :: rest
      ∧ ¬ known_move t.

(** * Basic facts *)

Ltac refute_line H :=
  rewrite !elem_of_cons, elem_of_nil in H; destruct_or!; done.

(** ** The scenarios of the specification *)

Example single_rule_on_a :
  simulate_ntm single_rule "a" None
  = Some (Return [NameOfMachine "single"; InitialString "a";
                  TotalTransitions 1; StringAccepted 1;
                  TreeOfConfigurations;
                  DepthLine 0 [mkConfig "" "start" "a"];
                  DepthLine 1 [mkConfig "" "accept" "a"]]).
Proof. vm_compute. reflexivity. Qed.

Example no_rule_for_b_on_b :
  simulate_ntm no_rule_for_b "b" None
  = Some (Return [NameOfMachine "norule"; InitialString "b";
                  TotalTransitions 0; StringRejected 0;
                  TreeOfConfigurations;
                  DepthLine 0 [mkConfig "" "start" "b"]]).
Proof. vm_compute. reflexivity. Qed.

Example two_branches_on_a :
  simulate_ntm two_branches "a" None
  = Some (Return [NameOfMachine "branch"; InitialString "a";
                  TotalTransitions 2; StringRejected 1;
                  TreeOfConfigurations;
                  DepthLine 0 [mkConfig "" "start" "a"];
                  DepthLine 1 [mkConfig "a" "p" "_"; mkConfig "" "q" "_b"]]).
Proof. vm_compute. reflexivity. Qed.

(** ** Strings *)

Lemma str_app_nil_r (s : string) : s +:+ "" = s.
Proof. induction s as [|c s IH]; [done|]. unfold String.app in *. simpl. by rewrite IH. Qed.

Lemma str_app_assoc (s1 s2 s3 : string) :
  (s1 +:+ s2) +:+ s3 = s1 +:+ (s2 +:+ s3).
Proof.
  induction s1 as [|c s1 IH]; [done|].
  unfold String.app in *. simpl. by rewrite IH.
Qed.

Lemma join_app (l1 l2 : list string) : join (l1 ++ l2) = join l1 +:+ join l2.
Proof.
  induction l1 as [|x l1 IH]; simpl; [done|].
  by rewrite IH, str_app_assoc.
Qed.

Lemma join_list_of_str (s : string) : join (list_of_str s) = s.
Proof. induction s as [|c s IH]; simpl; [done|]. unfold String.app. simpl. by rewrite IH. Qed.

Lemma list_of_str_app (s1 s2 : string) :
  list_of_str (s1 +:+ s2) = list_of_str s1 ++ list_of_str s2.
Proof.
  induction s1 as [|c s1 IH]; [done|].
  unfold String.app in *. simpl. by rewrite IH.
Qed.

Lemma length_list_of_str (s : string) : length (list_of_str s) = String.length s.
Proof. induction s as [|c s IH]; simpl; [done|]. by rewrite IH. Qed.

Lemma join_take_drop (n : nat) (l : list string) :
  join (take n l) +:+ join (drop n l) = join l.
Proof. by rewrite <- join_app, take_drop. Qed.

(** ** One transition on the tape *)

Lemma write_cell_join (t : Transition) (l r : string) :
  join (write_cell t (list_of_str (l +:+ r)) (String.length l))
  = l +:+ tape_write t +:+ after_head r.
Proof.
  unfold write_cell. rewrite list_of_str_app, length_app, !length_list_of_str.
  destruct r as [|x r]; simpl.
  - rewrite bool_decide_eq_false_2 by lia.
    rewrite app_nil_r, join_app, join_list_of_str. simpl.
    by rewrite str_app_nil_r.
  - rewrite bool_decide_eq_true_2 by lia.
    rewrite <- (length_list_of_str l).
    rewrite (insert_app_r_alt _ _ (length (list_of_str l))) by lia.
    rewrite Nat.sub_diag. simpl.
    rewrite join_app, join_list_of_str. simpl. by rewrite join_list_of_str.
Qed.

Lemma fit_bounds_join (tape tape' : list string) (h h' : Z) :
  fit_bounds tape h = (tape', h') →
  (0 ≤ h')%Z ∧
  ∃ pre post : string,
    (pre = "" ∨ pre = "_") ∧ (post = "" ∨ post = "_") ∧
    (tape ≠ [] → pre = "" ∨ post = "") ∧
    join tape' = pre +:+ join tape +:+ post.
Proof.
  unfold fit_bounds. intros Hfit.
  destruct (decide (h < 0)%Z) as [Hneg|Hpos].
  - rewrite (bool_decide_eq_true_2 _ Hneg) in Hfit.
    destruct (decide (Z.of_nat (length ("_" :: tape)) ≤ 0)%Z) as [Hle|Hgt].
    { simpl in Hle. lia. }
    rewrite (bool_decide_eq_false_2 _ Hgt) in Hfit. simplify_eq.
    split; [lia|]. exists "_", "". repeat split; auto.
    simpl. by rewrite str_app_nil_r.
  - rewrite (bool_decide_eq_false_2 _ Hpos) in Hfit.
    destruct (decide (Z.of_nat (length tape) ≤ h)%Z) as [Hle|Hgt].
    + rewrite (bool_decide_eq_true_2 _ Hle) in Hfit. simplify_eq.
      split; [lia|]. exists "", "_". repeat split; auto.
      rewrite join_app. simpl. done.
    + rewrite (bool_decide_eq_false_2 _ Hgt) in Hfit. simplify_eq.
      split; [lia|]. exists "", "". repeat split; auto.
      by rewrite str_app_nil_r.
Qed.

Lemma write_cell_nonempty (t : Transition) (tape : list string) (head : nat) :
  write_cell t tape head ≠ [].
Proof.
  unfold write_cell. case_bool_decide as Hlt.
  - intros Hnil. apply (f_equal length) in Hnil.
    rewrite length_insert in Hnil. simpl in Hnil. lia.
  - by destruct tape.
Qed.

(** ** Inversion of the exception monad *)

Lemma bind_Return {A B : Type} (m : Exc A) (k : A → Exc B) (b : B) :
  m ≫= k = Return b ↔ ∃ x, m = Return x ∧ k x = Return b.
Proof.
  destruct m as [x|e]; simpl; split.
  - eauto.
  - by intros (? & [= <-] & ?).
  - done.
  - by intros (? & ? & ?).
Qed.

Lemma successor_Return (t : Transition) (tape : list string) (head : nat)
    (stale : option Z) (c : Config) (h : Z) :
  successor t tape head stale = Return (c, h) →
  ∃ h0 tape',
    move_head t head stale = Return h0 ∧
    fit_bounds (write_cell t tape head) h0 = (tape', h) ∧
    c = mkConfig (join (take (Z.to_nat h) tape')) (next_state t)
                 (join (drop (Z.to_nat h) tape')).
Proof.
  unfold successor. intros (h0 & Hmove & Hrest)%bind_Return.
  destruct (fit_bounds _ h0) as [tape' h'] eqn:Hfit.
  injection Hrest as <- <-. eauto.
Qed.

Lemma apply_transition_Return (t : Transition) (tape : list string)
    (head : nat) (st st' : Locals) :
  apply_transition t tape head st = Return st' →
  ∃ c h,
    successor t tape head (new_head st) = Return (c, h) ∧
    st' = mkLocals (tree st) (total_transitions st + 1) (accept_count st)
            (reject_count st) (depth st) (Some h) (next_level st ++ [c])
            (stdout st).
Proof.
  unfold apply_transition. intros ([c h] & Hsucc & Hret)%bind_Return.
  simpl in Hsucc. injection Hret as <-. eauto.
Qed.

(** ** What the loops over a level leave unchanged *)

Lemma grows_refl (st : Locals) : grows st st.
Proof. split; auto. exists []. by rewrite app_nil_r. Qed.

Lemma grows_trans (st1 st2 st3 : Locals) :
  grows st1 st2 → grows st2 st3 → grows st1 st3.
Proof.
  intros [T1 D1 O1 N1 A1 [l1 L1]] [T2 D2 O2 N2 A2 [l2 L2]].
  split; try congruence; try lia.
  exists (l1 ++ l2). by rewrite L2, L1, app_assoc.
Qed.

Lemma apply_transition_grows (t : Transition) (tape : list string)
    (head : nat) (st st' : Locals) :
  apply_transition t tape head st = Return st' → grows st st'.
Proof.
  intros (c & h & _ & ->)%apply_transition_Return.
  split; simpl; eauto; lia.
Qed.

Lemma for_transitions_grows (ts : list Transition) (q : string)
    (tape : list string) (head : nat) (st st' : Locals) :
  for_transitions ts q tape head st = Return st' → grows st st'.
Proof.
  revert st. induction ts as [|t ts IH]; intros st; simpl.
  - intros [= <-]. apply grows_refl.
  - destruct (matches t q tape head); [|by apply IH].
    intros (st1 & H1 & H2)%bind_Return.
    eapply grows_trans; [by eapply apply_transition_grows|by apply IH].
Qed.

Lemma visit_grows (a : Automata) (c : Config) (st st' : Locals) :
  visit a c st = Return st' → grows st st'.
Proof.
  unfold visit. repeat case_bool_decide.
  - intros [= <-]. split; simpl; eauto; try lia. exists []. by rewrite app_nil_r.
  - intros [= <-]. split; simpl; eauto.
  - apply for_transitions_grows.
Qed.

Lemma for_configs_grows (a : Automata) (level : list Config)
    (st st' : Locals) :
  for_configs a level st = Return st' → grows st st'.
Proof.
  revert st. induction level as [|c level IH]; intros st; simpl.
  - intros [= <-]. apply grows_refl.
  - intros (st1 & H1 & H2)%bind_Return.
    eapply grows_trans; [by eapply visit_grows|by apply IH].
Qed.

Lemma for_configs_app (a : Automata) (l1 l2 : list Config) (st : Locals) :
  for_configs a (l1 ++ l2) st
  = for_configs a l1 st ≫= for_configs a l2.
Proof.
  revert st. induction l1 as [|c l1 IH]; intros st; simpl; [done|].
  destruct (visit a c st) as [st1|e]; simpl; [apply IH|done].
Qed.

(** ** Accepting and rejecting configurations inside a level *)

Lemma visit_accept (a : Automata) (c : Config) (st : Locals) :
  state c = accept_state a →
  visit a c st = Return (set_accept_count (accept_count st + 1) st).
Proof. intros Hacc. unfold visit. by rewrite bool_decide_eq_true_2. Qed.

Lemma visit_reject (a : Automata) (c : Config) (st : Locals) :
  state c ≠ accept_state a →
  state c = reject_state a →
  visit a c st
  = Return (set_next_level (next_level st ++ [c])
              (set_reject_count (reject_count st + 1) st)).
Proof.
  intros Hacc Hrej. unfold visit.
  rewrite bool_decide_eq_false_2, bool_decide_eq_true_2 by done.
  by destruct c.
Qed.

Lemma for_configs_counts_accept (a : Automata) (level : list Config)
    (c : Config) (st st' : Locals) :
  for_configs a level st = Return st' →
  c ∈ level →
  state c = accept_state a →
  accept_count st < accept_count st'.
Proof.
  intros Hrun (l1 & l2 & ->)%list_elem_of_split Hacc.
  rewrite for_configs_app in Hrun.
  apply bind_Return in Hrun as (st1 & H1 & H2). simpl in H2.
  rewrite (visit_accept _ _ _ Hacc) in H2. simpl in H2.
  apply for_configs_grows in H1, H2.
  destruct H1 as [_ _ _ _ A1 _], H2 as [_ _ _ _ A2 _]. simpl in A2. lia.
Qed.

Lemma for_configs_keeps_reject (a : Automata) (level : list Config)
    (c : Config) (st st' : Locals) :
  for_configs a level st = Return st' →
  c ∈ level →
  state c ≠ accept_state a →
  state c = reject_state a →
  c ∈ next_level st'.
Proof.
  intros Hrun (l1 & l2 & ->)%list_elem_of_split Hacc Hrej.
  rewrite for_configs_app in Hrun.
  apply bind_Return in Hrun as (st1 & H1 & H2). simpl in H2.
  rewrite (visit_reject _ _ _ Hacc Hrej) in H2. simpl in H2.
  apply for_configs_grows in H2. destruct H2 as [_ _ _ _ _ [l ->]]. simpl.
  set_solver.
Qed.

(** ** The [while] loop as a step relation *)

Lemma while_loop_Return (fuel : nat) (a : Automata) (k : Z)
    (st fin : Locals) :
  while_loop fuel a k st = Some (Return fin) →
  ∃ st1, rtc (step a k) st st1 ∧ ends a k st1 fin.
Proof.
  revert st. induction fuel as [|fuel IH]; intros st; simpl; [done|].
  case_bool_decide as Hlt.
  - destruct (iteration a st) as [[st'|st']|e] eqn:Hit; [| |done].
    + intros (st1 & Hrtc & Hend)%IH. exists st1. split; [|done].
      eapply rtc_l; [|done]. by split.
    + intros [= <-]. exists st. split; [done|]. right. by split.
  - intros [= <-]. exists st. split; [done|]. by left.
Qed.

Lemma iteration_Continue (a : Automata) (st st' : Locals) :
  iteration a st = Return (Continue st') →
  ∃ current_level st1,
    last (tree st) = Some current_level ∧
    for_configs a current_level (set_next_level [] st) = Return st1 ∧
    next_level st1 ≠ [] ∧
    st' = set_depth (depth st1 + 1) (set_tree (tree st1 ++ [next_level st1]) st1).
Proof.
  unfold iteration. destruct (last (tree st)) as [cur|]; [|done].
  intros (st1 & Hfor & Hrest)%bind_Return.
  exists cur, st1. destruct (next_level st1) eqn:Hnext; [done|].
  injection Hrest as <-. done.
Qed.

Lemma iteration_Returned (a : Automata) (st fin : Locals) :
  iteration a st = Return (Returned fin) →
  ∃ current_level st1,
    last (tree st) = Some current_level ∧
    for_configs a current_level (set_next_level [] st) = Return st1 ∧
    next_level st1 = [] ∧
    stdout fin = stdout st
                 ++ [TotalTransitions (total_transitions st1); verdict_line st1;
                     TreeOfConfigurations]
                 ++ imap DepthLine (tree st).
Proof.
  unfold iteration. destruct (last (tree st)) as [cur|]; [|done].
  intros (st1 & Hfor & Hrest)%bind_Return.
  exists cur, st1. destruct (next_level st1) eqn:Hnext; [|done].
  injection Hrest as <-. repeat split; [done..|].
  apply for_configs_grows in Hfor as [HT _ HO _ _ _]. simpl in *.
  unfold verdict_line.
  destruct (accept_count st1); simpl; rewrite HO, HT, <- !app_assoc; done.
Qed.

(** ** Invariants of the loop *)

Section Invariant.
Variables (a : Automata) (input_string : string) (k : Z).

Lemma Inv_initial : Inv a input_string k (initial_locals a input_string).
Proof.
  split; simpl; try done.
  - lia.
  - intros; lia.
  - intros [|i] [|j] level level' c; simpl; intros; simplify_eq; done.
Qed.

Lemma Inv_last (st : Locals) :
  Inv a input_string k st → last (tree st) = tree st !! depth st.
Proof. intros [Hlen _ _ _ _]. rewrite last_lookup, Hlen. done. Qed.

Lemma Inv_step (st st' : Locals) :
  Inv a input_string k st → step a k st st' → Inv a input_string k st'.
Proof.
  intros HI [Hlt (cur & st1 & Hlast & Hfor & Hne & ->)%iteration_Continue].
  rewrite (Inv_last _ HI) in Hlast.
  destruct HI as [Hlen Hout Hbound Hacc Hrej].
  pose proof (for_configs_grows _ _ _ _ Hfor) as [HT HD HO _ HA _].
  simpl in *. split; simpl.
  - rewrite HT, length_app, Hlen, HD. simpl. lia.
  - by rewrite HO.
  - lia.
  - intros i level c Hi Hdepth Hc Hstate. rewrite HT in Hi.
    destruct (decide (i < depth st)) as [Hold|Hnew].
    + rewrite lookup_app_l in Hi by lia.
      specialize (Hacc _ _ _ Hi Hold Hc Hstate). lia.
    + assert (i = depth st) as -> by lia.
      rewrite lookup_app_l in Hi by lia. simplify_eq.
      pose proof (for_configs_counts_accept _ _ _ _ _ Hfor Hc Hstate).
      simpl in *. lia.
  - intros i j level level' c Hi Hj Hij Hc Hna Hr. rewrite HT in Hi, Hj.
    destruct (decide (j < length (tree st))) as [Hold|Hnew].
    + rewrite lookup_app_l in Hi, Hj by lia. eauto.
    + assert (j = length (tree st)) as ->.
      { apply lookup_lt_Some in Hj. rewrite length_app in Hj. simpl in Hj. lia. }
      rewrite list_lookup_middle in Hj by done. simplify_eq.
      destruct (decide (i < length (tree st))) as [Hi'|Hi'].
      * rewrite lookup_app_l in Hi by lia.
        eapply for_configs_keeps_reject; [done| |done|done].
        apply (Hrej i (depth st) level cur c); auto. lia.
      * assert (i = length (tree st)) as -> by lia.
        rewrite list_lookup_middle in Hi by done. by simplify_eq.
Qed.
End Invariant.

Lemma rtc_step_Inv (a : Automata) (s : string) (k : Z) (st st1 : Locals) :
  rtc (step a k) st st1 → Inv a s k st → Inv a s k st1.
Proof. induction 1; eauto using Inv_step. Qed.

(** ** The two shapes of a completed run *)

Lemma simulate_ntm_fuel_Return (fuel : nat) (a : Automata) (s : string)
    (ms : option Z) (out : list Line) :
  simulate_ntm_fuel fuel a s ms = Some (Return out) →
  ∃ st, Inv a s (default default_max_steps ms) st ∧
    (stopped_output a s (default default_max_steps ms) st out
     ∨ ∃ st1, halted_output a s (default default_max_steps ms) st st1 out).
Proof.
  unfold simulate_ntm_fuel. set (k := default default_max_steps ms).
  destruct (while_loop _ _ _ _) as [[fin|e]|] eqn:Hloop; [|done..].
  intros [= <-].
  apply while_loop_Return in Hloop as (st & Hrtc & Hend).
  pose proof (rtc_step_Inv _ s _ _ _ Hrtc (Inv_initial a s k)) as HI.
  exists st. split; [done|].
  destruct Hend as [[Hge ->]|[Hlt Hit]].
  - left. split; [done|]. simpl. rewrite (inv_stdout _ _ _ _ HI).
    by rewrite <- !app_assoc.
  - right. apply iteration_Returned in Hit as (cur & st1 & Hlast & Hfor & Hnil & Hout).
    exists st1. rewrite (Inv_last _ _ _ _ HI) in Hlast.
    split; [done|]. split; [eauto|]. split; [done|].
    by rewrite Hout, (inv_stdout _ _ _ _ HI).
Qed.

Lemma simulate_ntm_Return (a : Automata) (s : string) (ms : option Z)
    (out : list Line) :
  simulate_ntm a s ms = Some (Return out) →
  ∃ st, Inv a s (default default_max_steps ms) st ∧
    (stopped_output a s (default default_max_steps ms) st out
     ∨ ∃ st1, halted_output a s (default default_max_steps ms) st st1 out).
Proof. apply simulate_ntm_fuel_Return. Qed.

(** *** Reading the printed lines back *)

Lemma DepthLine_imap (t : list (list Config)) (d : nat) (level : list Config) :
  DepthLine d level ∈ imap DepthLine t ↔ t !! d = Some level.
Proof.
  rewrite elem_of_lookup_imap. split.
  - by intros (i & y & [= -> ->] & ?).
  - eauto.
Qed.

Lemma stopped_output_lines (a : Automata) (s : string) (k : Z) (st : Locals)
    (out : list Line) :
  stopped_output a s k st out →
  (∀ d level, DepthLine d level ∈ out ↔ tree st !! d = Some level) ∧
  (∀ m, ExecutionStopped m ∈ out ↔ m = k) ∧
  (∀ D, StringAccepted D ∉ out) ∧
  (∀ D, StringRejected D ∉ out) ∧
  (∀ n, TotalTransitions n ∈ out ↔ n = total_transitions st).
Proof.
  intros [_ ->]. unfold header.
  split_and!; intros; rewrite ?elem_of_app, ?elem_of_cons, ?elem_of_nil,
    ?elem_of_lookup_imap; naive_solver.
Qed.

Lemma halted_output_lines (a : Automata) (s : string) (k : Z)
    (st st1 : Locals) (out : list Line) :
  halted_output a s k st st1 out →
  (∀ d level, DepthLine d level ∈ out ↔ tree st !! d = Some level) ∧
  (∀ m, ExecutionStopped m ∉ out) ∧
  (∀ D, StringAccepted D ∈ out ↔ D = depth st ∧ 0 < accept_count st1) ∧
  (∀ D, StringRejected D ∈ out ↔ D = depth st ∧ accept_count st1 = 0) ∧
  (∀ n, TotalTransitions n ∈ out ↔ n = total_transitions st1).
Proof.
  intros (_ & (cur & _ & Hfor) & _ & ->). unfold header, verdict_line.
  apply for_configs_grows in Hfor as [_ HD _ _ _ _]. simpl in HD.
  rewrite HD.
  destruct (accept_count st1) as [|n];
    split_and!; intros; rewrite ?elem_of_app, ?elem_of_cons, ?elem_of_nil,
      ?elem_of_lookup_imap; naive_solver lia.
Qed.

(** ** Termination of the loop *)

Lemma step_depth (a : Automata) (st st' : Locals) :
  iteration a st = Return (Continue st') → depth st' = depth st + 1.
Proof.
  intros (cur & st1 & _ & Hfor & _ & ->)%iteration_Continue.
  apply for_configs_grows in Hfor as [_ HD _ _ _ _]. simpl in *. lia.
Qed.

Lemma while_loop_enough_fuel (a : Automata) (k : Z) (n : nat) (st : Locals) :
  Z.to_nat k ≤ depth st + n → is_Some (while_loop (S n) a k st).
Proof.
  revert st. induction n as [|n IH]; intros st Hfuel.
  - simpl. rewrite bool_decide_eq_false_2 by lia. eauto.
  - change (while_loop (S (S n)) a k st)
      with (if bool_decide (Z.of_nat (depth st) < k)%Z
            then match iteration a st with
                 | Raise e => Some (Raise e)
                 | Return (Returned st') => Some (Return st')
                 | Return (Continue st') => while_loop (S n) a k st'
                 end
            else Some (Return (stopped k st))).
    case_bool_decide; [|eauto].
    destruct (iteration a st) as [[st'|st']|e] eqn:Hit; [|eauto..].
    apply IH. rewrite (step_depth _ _ _ Hit). lia.
Qed.

Lemma while_loop_more_fuel (a : Automata) (k : Z) (fuel fuel' : nat)
    (st : Locals) (r : Exc Locals) :
  while_loop fuel a k st = Some r → fuel ≤ fuel' →
  while_loop fuel' a k st = Some r.
Proof.
  revert fuel' st. induction fuel as [|fuel IH]; intros fuel' st; [done|].
  intros Hrun Hle. destruct fuel' as [|fuel']; [lia|].
  simpl in *. case_bool_decide; [|done].
  destruct (iteration a st) as [[st'|st']|e]; [|done..].
  apply IH; [done|lia].
Qed.

Lemma while_loop_fuel_agree (a : Automata) (k : Z) (fuel1 fuel2 : nat)
    (st : Locals) (r1 r2 : Exc Locals) :
  while_loop fuel1 a k st = Some r1 → while_loop fuel2 a k st = Some r2 →
  r1 = r2.
Proof.
  intros H1 H2.
  apply (while_loop_more_fuel _ _ _ (fuel1 `max` fuel2)) in H1; [|lia].
  apply (while_loop_more_fuel _ _ _ (fuel1 `max` fuel2)) in H2; [|lia].
  congruence.
Qed.

Lemma simulate_ntm_fuel_agree (a : Automata) (s : string) (ms : option Z)
    (fuel1 fuel2 : nat) (r1 r2 : Exc (list Line)) :
  simulate_ntm_fuel fuel1 a s ms = Some r1 →
  simulate_ntm_fuel fuel2 a s ms = Some r2 →
  r1 = r2.
Proof.
  unfold simulate_ntm_fuel.
  destruct (while_loop fuel1 _ _ _) as [x1|] eqn:H1; [|by destruct r1].
  destruct (while_loop fuel2 _ _ _) as [x2|] eqn:H2; [|by destruct x1].
  rewrite (while_loop_fuel_agree _ _ _ _ _ _ _ H1 H2).
  destruct x2; congruence.
Qed.

Lemma simulate_ntm_is_Some (a : Automata) (s : string) (ms : option Z) :
  is_Some (simulate_ntm a s ms).
Proof.
  unfold simulate_ntm, simulate_ntm_fuel.
  destruct (while_loop_enough_fuel a (default default_max_steps ms)
              (Z.to_nat (default default_max_steps ms))
              (initial_locals a s)) as [r ->]; [simpl; lia|].
  destruct r; eauto.
Qed.

(** ** Machines whose move symbols are all known *)

Lemma move_head_known (t : Transition) (head : nat) (stale : option Z) :
  known_move t → ∃ h, move_head t head stale = Return h.
Proof.
  unfold move_head. intros [ -> | [ -> | -> ] ]; simpl; eauto.
Qed.

Lemma apply_transition_known (t : Transition) (tape : list string)
    (head : nat) (st : Locals) :
  known_move t → ∃ st', apply_transition t tape head st = Return st'.
Proof.
  intros Hk. unfold apply_transition, successor. simpl.
  destruct (move_head_known t head (new_head st) Hk) as [h ->]. simpl.
  destruct (fit_bounds _ h). simpl. eauto.
Qed.

Lemma for_transitions_known (ts : list Transition) (q : string)
    (tape : list string) (head : nat) (st : Locals) :
  Forall known_move ts → ∃ st', for_transitions ts q tape head st = Return st'.
Proof.
  intros Hall. revert st. induction Hall as [|t ts Ht _ IH]; intros st; simpl.
  - eauto.
  - destruct (matches t q tape head); [|apply IH].
    destruct (apply_transition_known t tape head st Ht) as [st1 ->]. simpl.
    apply IH.
Qed.

Lemma for_configs_known (a : Automata) (level : list Config) (st : Locals) :
  well_formed a → ∃ st', for_configs a level st = Return st'.
Proof.
  intros Hwf. revert st. induction level as [|c level IH]; intros st; simpl.
  - eauto.
  - assert (∃ st1, visit a c st = Return st1) as [st1 ->].
    { unfold visit. repeat case_bool_decide; eauto.
      by apply for_transitions_known. }
    simpl. apply IH.
Qed.

Lemma while_loop_known (a : Automata) (k : Z) (fuel : nat) (st : Locals)
    (e : PyError) :
  well_formed a → tree st ≠ [] → while_loop fuel a k st ≠ Some (Raise e).
Proof.
  intros Hwf. revert st. induction fuel as [|fuel IH]; intros st Hne; [done|].
  simpl. case_bool_decide; [|done].
  destruct (iteration a st) as [[st'|st']|e'] eqn:Hit; [|done|].
  - apply IH.
    apply iteration_Continue in Hit as (? & st1 & _ & _ & _ & ->). simpl.
    destruct (tree st1); done.
  - exfalso. unfold iteration in Hit.
    destruct (last (tree st)) as [cur|] eqn:Hlast.
    + destruct (for_configs_known a cur (set_next_level [] st) Hwf) as [st1 H1].
      rewrite H1 in Hit. simpl in Hit. by destruct (next_level st1).
    + by apply last_None in Hlast.
Qed.

Lemma simulate_ntm_well_formed (a : Automata) (s : string) (ms : option Z) :
  well_formed a → ∃ out, simulate_ntm a s ms = Some (Return out).
Proof.
  intros Hwf. destruct (simulate_ntm_is_Some a s ms) as [[out|e] Hrun]; [eauto|].
  exfalso. unfold simulate_ntm, simulate_ntm_fuel in Hrun.
  destruct (while_loop _ _ _ _) as [[fin|e']|] eqn:Hloop; [done| |done].
  by apply while_loop_known in Hloop.
Qed.

(** * Properties of the simulator *)

(** ** Rule selection when the head is past the tape *)

(** Out of bounds the test on the symbol disappears: every rule of the
    current state is selected. *)
Lemma matches_out_of_bounds (t : Transition) (q : string)
    (tape : list string) (head : nat) :
  length tape ≤ head →
  matches t q tape head = bool_decide (current_state t = q).
Proof.
  intros Hle. unfold matches. rewrite (bool_decide_eq_false_2 (head < _)) by lia.
  apply andb_true_r.
Qed.

(** C1 (the code departs from the claim). On the empty input the head of the
    initial configuration is at the end of the empty tape. The only rule of
    [reads_a] reads ["a"], not the blank ["_"], yet line 91 selects it: one
    transition is counted and its successor is placed in level 1. *)
Theorem non_blank_rule_applied_out_of_bounds :
  input_char (mkTransition "start" "a" "p" "b" "R") ≠ "_"
  ∧ ¬ (String.length "" < length (list_of_str ("" +:+ "")))
  ∧ matches (mkTransition "start" "a" "p" "b" "R") "start"
            (list_of_str ("" +:+ "")) (String.length "") = true
  ∧ simulate_ntm reads_a "" None
    = Some (Return [NameOfMachine "reads_a"; InitialString "";
                    TotalTransitions 1; StringRejected 1;
                    TreeOfConfigurations;
                    DepthLine 0 [mkConfig "" "start" ""];
                    DepthLine 1 [mkConfig "b" "p" "_"]]).
Proof.
  split_and!.
  - done.
  - simpl. lia.
  - vm_compute. reflexivity.
  - vm_compute. reflexivity.
Qed.

(** ** The depth reported with an acceptance *)

Lemma late_sibling_on_a :
  simulate_ntm late_sibling "a" None = Some (Return late_sibling_output).
Proof. vm_compute. reflexivity. Defined.




(** ** Rejecting configurations *)

Lemma reject_persists (a : Automata) (s : string) (ms : option Z)
    (out : list Line) (d j : nat) (level level' : list Config) (c : Config) :
  simulate_ntm a s ms = Some (Return out) →
  DepthLine d level ∈ out → c ∈ level →
  state c ≠ accept_state a → state c = reject_state a →
  d ≤ j → DepthLine j level' ∈ out →
  c ∈ level'.
Proof.
  intros (st & HI & Hshape)%simulate_ntm_Return Hd Hc Hna Hr Hdj Hj.
  assert (∀ i l, DepthLine i l ∈ out ↔ tree st !! i = Some l) as Hlines.
  { destruct Hshape as [Hstop|[st1 Hhalt]].
    - by apply stopped_output_lines in Hstop as (? & _).
    - by apply halted_output_lines in Hhalt as (? & _). }
  apply Hlines in Hd, Hj.
  by apply (inv_reject _ _ _ _ HI d j level level' c).
Qed.

Lemma reject_run_stops (a : Automata) (s : string) (ms : option Z)
    (out : list Line) (d : nat) (level : list Config) (c : Config) :
  simulate_ntm a s ms = Some (Return out) →
  DepthLine d level ∈ out → c ∈ level →
  state c ≠ accept_state a → state c = reject_state a →
  ∃ st, Inv a s (default default_max_steps ms) st
        ∧ stopped_output a s (default default_max_steps ms) st out.
Proof.
  intros (st & HI & [Hstop|[st1 Hhalt]])%simulate_ntm_Return Hd Hc Hna Hr;
    [by eauto|].
  exfalso.
  pose proof (halted_output_lines _ _ _ _ _ _ Hhalt) as (Hlines & _).
  destruct Hhalt as (_ & (cur & Hcur & Hfor) & Hnil & _).
  apply Hlines in Hd.
  assert (c ∈ cur) as Hcur_c.
  { apply (inv_reject _ _ _ _ HI d (depth st) level cur c); auto.
    apply lookup_lt_Some in Hd. rewrite (inv_length _ _ _ _ HI) in Hd. lia. }
  pose proof (for_configs_keeps_reject _ _ _ _ _ Hfor Hcur_c Hna Hr) as Hin.
  rewrite Hnil in Hin. by apply elem_of_nil in Hin.
Qed.

(** C3, counterexample. In [one_halt_state] the accept state and the reject
    state coincide; the accept test of line 79 comes first, so a
    configuration in that state is dropped instead of being copied. *)
Lemma reject_forward_counterexample :
  ¬ reject_config_forwarded one_halt_state.
Proof.
  intros Hclaim.
  destruct (Hclaim (mkConfig "" "halt" "a") (initial_locals one_halt_state "a")
              eq_refl) as (st' & Hvisit & _ & Hnext).
  vm_compute in Hvisit. injection Hvisit as <-. simpl in Hnext. done.
Qed.

(** C3, amended. A configuration in the reject state that is not also the
    accept state applies no rule (the transition counter and [new_head] are
    untouched), is appended unchanged to the next level, and is found in
    every later level of the trace. *)
Theorem reject_config_carried_forward (a : Automata) (c : Config) :
  state c = reject_state a →
  state c ≠ accept_state a →
  (∀ st,
     visit a c st
     = Return (set_next_level (next_level st ++ [c])
                 (set_reject_count (reject_count st + 1) st))
     ∧ ∃ st', visit a c st = Return st'
              ∧ total_transitions st' = total_transitions st
              ∧ next_level st' = next_level st ++ [c])
  ∧ (∀ s ms out d level j level',
       simulate_ntm a s ms = Some (Return out) →
       DepthLine d level ∈ out → c ∈ level →
       d ≤ j → DepthLine j level' ∈ out →
       c ∈ level').
Proof.
  intros Hr Hna. split.
  - intros st. rewrite (visit_reject _ _ _ Hna Hr). split; [done|].
    eexists. split; [done|]. by simpl.
  - intros s ms out d level j level' Hrun Hd Hc Hdj Hj.
    by apply (reject_persists a s ms out d j level level' c).
Qed.

Lemma rejects_a_on_a :
  simulate_ntm rejects_a "a" (Some 3%Z) = Some (Return rejects_a_output).
Proof. vm_compute. reflexivity. Defined.

Lemma reject_config_carried_forward_witness :
  (∀ st,
     visit rejects_a (mkConfig "" "reject" "a") st
     = Return (set_next_level (next_level st ++ [mkConfig "" "reject" "a"])
                 (set_reject_count (reject_count st + 1) st))
     ∧ ∃ st', visit rejects_a (mkConfig "" "reject" "a") st = Return st'
              ∧ total_transitions st' = total_transitions st
              ∧ next_level st' = next_level st ++ [mkConfig "" "reject" "a"])
  ∧ (∀ s ms out d level j level',
       simulate_ntm rejects_a s ms = Some (Return out) →
       DepthLine d level ∈ out → mkConfig "" "reject" "a" ∈ level →
       d ≤ j → DepthLine j level' ∈ out →
       mkConfig "" "reject" "a" ∈ level').
Proof.
  apply (reject_config_carried_forward rejects_a (mkConfig "" "reject" "a")).
  - reflexivity.
  - simpl. discriminate.
Defined.

Lemma one_halt_state_on_a :
  simulate_ntm one_halt_state "a" None = Some (Return one_halt_state_output).
Proof. vm_compute. reflexivity. Defined.

(** C4, counterexample. With the accept state equal to the reject state, the
    configuration of level 1 is in the reject state, the next level is empty
    and the run ends with "accepted". *)
Lemma reject_step_bound_counterexample :
  ¬ reject_forces_step_bound one_halt_state "a" None.
Proof.
  intros Hclaim.
  destruct (Hclaim one_halt_state_output 1 [mkConfig "" "halt" "a"]
              (mkConfig "" "halt" "a") one_halt_state_on_a) as (_ & Hacc & _).
  - unfold one_halt_state_output. rewrite !elem_of_cons. auto 10.
  - apply list_elem_of_here.
  - reflexivity.
  - apply (Hacc 1). unfold one_halt_state_output. rewrite !elem_of_cons. auto 10.
Qed.

(** C4, amended. When the reject state differs from the accept state and a
    configuration in the reject state appears in level [d] of the trace, the
    configuration is in every level from [d] to [max_steps], the trace has
    exactly those levels, and the run prints the step-bound message and
    neither "accepted" nor "rejected". *)
Theorem reject_forces_maximum_depth (a : Automata) (s : string)
    (ms : option Z) (out : list Line) (d : nat) (level : list Config)
    (c : Config) :
  simulate_ntm a s ms = Some (Return out) →
  DepthLine d level ∈ out → c ∈ level →
  state c = reject_state a →
  state c ≠ accept_state a →
  ExecutionStopped (default default_max_steps ms) ∈ out
  ∧ (∀ D, StringAccepted D ∉ out)
  ∧ (∀ D, StringRejected D ∉ out)
  ∧ (∀ j, d ≤ j ≤ Z.to_nat (default default_max_steps ms) →
          ∃ level', DepthLine j level' ∈ out ∧ c ∈ level')
  ∧ (∀ j level', DepthLine j level' ∈ out →
                 j ≤ Z.to_nat (default default_max_steps ms)).
Proof.
  intros Hrun Hd Hc Hr Hna.
  destruct (reject_run_stops a s ms out d level c Hrun Hd Hc Hna Hr)
    as (st & HI & Hstop).
  pose proof (stopped_output_lines _ _ _ _ _ Hstop)
    as (Hlines & Hk & HA & HR & _).
  destruct Hstop as [Hge _].
  pose proof (inv_bound _ _ _ _ HI) as Hb.
  pose proof (inv_length _ _ _ _ HI) as Hlen.
  assert (depth st = Z.to_nat (default default_max_steps ms)) as Hdepth by lia.
  split_and!; [by apply Hk|done|done| |].
  - intros j [Hdj Hjk].
    destruct (lookup_lt_is_Some_2 (tree st) j) as [level' Hj]; [lia|].
    exists level'. split; [by apply Hlines|].
    apply Hlines in Hd.
    by apply (inv_reject _ _ _ _ HI d j level level' c).
  - intros j level' Hj%Hlines. apply lookup_lt_Some in Hj. lia.
Qed.

Lemma reject_forces_maximum_depth_witness :
  ExecutionStopped 3 ∈ rejects_a_output
  ∧ (∀ D, StringAccepted D ∉ rejects_a_output)
  ∧ (∀ D, StringRejected D ∉ rejects_a_output)
  ∧ (∀ j, 1 ≤ j ≤ 3 →
          ∃ level', DepthLine j level' ∈ rejects_a_output
                    ∧ mkConfig "" "reject" "a" ∈ level')
  ∧ (∀ j level', DepthLine j level' ∈ rejects_a_output → j ≤ 3).
Proof.
  apply (reject_forces_maximum_depth rejects_a "a" (Some 3%Z) rejects_a_output
           1 [mkConfig "" "reject" "a"] (mkConfig "" "reject" "a")).
  - exact rejects_a_on_a.
  - unfold rejects_a_output. rewrite !elem_of_cons. auto 10.
  - apply list_elem_of_here.
  - reflexivity.
  - simpl. discriminate.
Defined.

(** ** Accepting configurations *)

(** C5. A configuration in the accept state adds nothing to the next level
    and applies no rule; only the accept counter moves. The loop over the
    level then goes on with the configurations that follow it. *)
Theorem accept_config_ends_its_branch_only (a : Automata) (c : Config) :
  state c = accept_state a →
  (∀ st,
     visit a c st = Return (set_accept_count (accept_count st + 1) st)
     ∧ ∃ st', visit a c st = Return st'
              ∧ next_level st' = next_level st
              ∧ total_transitions st' = total_transitions st
              ∧ accept_count st' = accept_count st + 1)
  ∧ (∀ before after st,
       for_configs a (before ++ c :: after) st
       = st1 ← for_configs a before st;
         for_configs a after (set_accept_count (accept_count st1 + 1) st1)).
Proof.
  intros Hacc. split.
  - intros st. rewrite (visit_accept _ _ _ Hacc). split; [done|].
    eexists. split; [done|]. by simpl.
  - intros before after st. rewrite for_configs_app.
    destruct (for_configs a before st) as [st1|e]; simpl; [|done].
    by rewrite (visit_accept _ _ _ Hacc).
Qed.

Lemma accept_config_ends_its_branch_only_witness :
  (∀ st,
     visit late_sibling (mkConfig "" "accept" "a") st
     = Return (set_accept_count (accept_count st + 1) st)
     ∧ ∃ st', visit late_sibling (mkConfig "" "accept" "a") st = Return st'
              ∧ next_level st' = next_level st
              ∧ total_transitions st' = total_transitions st
              ∧ accept_count st' = accept_count st + 1)
  ∧ (∀ before after st,
       for_configs late_sibling
         (before ++ mkConfig "" "accept" "a" :: after) st
       = st1 ← for_configs late_sibling before st;
         for_configs late_sibling after
           (set_accept_count (accept_count st1 + 1) st1)).
Proof.
  apply (accept_config_ends_its_branch_only late_sibling
           (mkConfig "" "accept" "a")).
  reflexivity.
Defined.

(** At depth 1 of [late_sibling] the accepting configuration comes first and
    its sibling is still expanded: level 2 holds the sibling's successor. *)
Example sibling_still_expanded :
  for_configs late_sibling
    [mkConfig "" "accept" "a"; mkConfig "" "p" "a"]
    (mkLocals [] 0 0 0 1 None [] [])
  = Return (mkLocals [] 1 1 0 1 (Some 0%Z) [mkConfig "" "q" "a"] []).
Proof. vm_compute. reflexivity. Qed.

(** ** A machine without transitions *)

(** C6, counterexample. With an empty table the run reports "accepted" when
    the start state is the accept state, and stops at the step bound when
    the start state is the reject state or when the bound is 0. *)
Lemma empty_table_counterexample :
  ¬ empty_table_rejects_at_0 accepts_at_once "a" None
  ∧ ¬ empty_table_rejects_at_0 rejects_at_once "a" (Some 2%Z)
  ∧ ¬ empty_table_rejects_at_0 no_rules "a" (Some 0%Z).
Proof.
  split_and!; intros Hclaim;
    destruct Hclaim as (out & Hrun & Hrej & _); try done;
    vm_compute in Hrun; injection Hrun as <-; refute_line Hrej.
Qed.

(** C6, amended. A machine with an empty transition table whose start state
    is neither the accept state nor the reject state, run on any input with a
    step bound of at least 1 (the default included), prints a total of 0
    transitions and "rejected at depth 0", and its trace is level 0 alone. *)
Theorem empty_table_rejects_at_depth_0 (a : Automata) (s : string)
    (ms : option Z) :
  transitions a = [] →
  start_state a ≠ accept_state a →
  start_state a ≠ reject_state a →
  (1 ≤ default default_max_steps ms)%Z →
  simulate_ntm a s ms
  = Some (Return [NameOfMachine (machine_name a); InitialString s;
                  TotalTransitions 0; StringRejected 0;
                  TreeOfConfigurations;
                  DepthLine 0 [mkConfig "" (start_state a) s]]).
Proof.
  intros Ht Hna Hnr Hk. unfold simulate_ntm, simulate_ntm_fuel.
  cbn [while_loop].
  rewrite bool_decide_eq_true_2 by (simpl; lia).
  unfold iteration, initial_locals, initial_config. simpl.
  unfold visit. simpl.
  rewrite !bool_decide_eq_false_2 by done. rewrite Ht. simpl.
  by rewrite join_list_of_str.
Qed.

Lemma empty_table_rejects_at_depth_0_witness :
  simulate_ntm no_rules "ab" None
  = Some (Return [NameOfMachine "empty"; InitialString "ab";
                  TotalTransitions 0; StringRejected 0;
                  TreeOfConfigurations;
                  DepthLine 0 [mkConfig "" "start" "ab"]]).
Proof.
  apply (empty_table_rejects_at_depth_0 no_rules "ab" None).
  - reflexivity.
  - simpl. discriminate.
  - simpl. discriminate.
  - simpl. unfold default_max_steps. lia.
Defined.

(** ** The tape across one transition *)

(** C7. Let [left ++ cell ++ rest] be the tape of a configuration, [cell]
    being the cell under the head (empty exactly when the head is at the end
    of the tape). The configuration that an applied transition appends to the
    next level has the tape [pre ++ left ++ tape_write ++ rest ++ post], where
    [pre] and [post] are empty or one blank and not both a blank: [left] and
    [rest] are kept as they are. *)
Theorem tape_round_trip (t : Transition) (c : Config) (st st' : Locals) :
  apply_transition t
    (list_of_str (left_of_head c +:+ right_of_head c))
    (String.length (left_of_head c)) st = Return st' →
  ∃ (cell rest : string) (c' : Config) (pre post : string),
    right_of_head c = cell +:+ rest
    ∧ String.length cell ≤ 1
    ∧ (cell = "" → rest = "")
    ∧ next_level st' = next_level st ++ [c']
    ∧ (pre = "" ∨ pre = "_") ∧ (post = "" ∨ post = "_")
    ∧ (pre = "" ∨ post = "")
    ∧ left_of_head c' +:+ right_of_head c'
      = pre +:+ left_of_head c +:+ tape_write t +:+ rest +:+ post.
Proof.
  intros (c' & h & Hsucc & ->)%apply_transition_Return.
  apply successor_Return in Hsucc as (h0 & tape' & _ & Hfit & ->).
  apply fit_bounds_join in Hfit
    as (_ & pre & post & Hpre & Hpost & Hone & Hjoin).
  specialize (Hone (write_cell_nonempty _ _ _)).
  rewrite write_cell_join in Hjoin.
  exists (match right_of_head c with
          | EmptyString => ""
          | String x _ => String x ""
          end), (after_head (right_of_head c)).
  eexists _, pre, post. simpl.
  assert (String.length
            match right_of_head c with
            | EmptyString => ""
            | String x _ => String x ""
            end ≤ 1) by (destruct (right_of_head c); simpl; lia).
  split_and!; try done; try (by destruct (right_of_head c)).
  cbn [left_of_head right_of_head].
  by rewrite join_take_drop, Hjoin, !str_app_assoc.
Qed.

Lemma tape_round_trip_witness :
  ∃ (cell rest : string) (c' : Config) (pre post : string),
    "bc" = cell +:+ rest
    ∧ String.length cell ≤ 1
    ∧ (cell = "" → rest = "")
    ∧ [mkConfig "" "q" "_xc"] = [] ++ [c']
    ∧ (pre = "" ∨ pre = "_") ∧ (post = "" ∨ post = "_")
    ∧ (pre = "" ∨ post = "")
    ∧ left_of_head c' +:+ right_of_head c'
      = pre +:+ "" +:+ "x" +:+ rest +:+ post.
Proof.
  apply (tape_round_trip (mkTransition "p" "b" "q" "x" "L")
           (mkConfig "" "p" "bc")
           (mkLocals [] 0 0 0 0 None [] [])
           (mkLocals [] 1 0 0 0 (Some 0%Z) [mkConfig "" "q" "_xc"] [])).
  vm_compute. reflexivity.
Defined.

(** ** Termination and the step bound *)

Lemma simulate_ntm_fuel_more (a : Automata) (s : string) (ms : option Z)
    (fuel : nat) (r : Exc (list Line)) :
  simulate_ntm a s ms = Some r →
  S (Z.to_nat (default default_max_steps ms)) ≤ fuel →
  simulate_ntm_fuel fuel a s ms = Some r.
Proof.
  intros Hrun Hle.
  destruct (simulate_ntm_fuel fuel a s ms) as [r'|] eqn:Hfuel.
  - f_equal. by eapply simulate_ntm_fuel_agree.
  - exfalso. unfold simulate_ntm, simulate_ntm_fuel in *.
    destruct (while_loop (S _) _ _ _) as [x|] eqn:Hloop; [|done].
    by rewrite (while_loop_more_fuel _ _ _ fuel _ _ Hloop Hle) in Hfuel;
      destruct x.
Qed.

(** C8, counterexample. With the bound -5 the loop is never entered: the run
    stops with level 0 printed, at depth 0, which is above the bound. *)
Lemma negative_bound_counterexample :
  ¬ depth_within_max_steps no_rules "a" (Some (-5)%Z).
Proof.
  intros Hclaim.
  specialize (Hclaim
    [NameOfMachine "empty"; InitialString "a"; TreeOfConfigurations;
     DepthLine 0 [mkConfig "" "start" "a"];
     ExecutionStopped (-5); TotalTransitions 0]
    0 [mkConfig "" "start" "a"]).
  simpl in Hclaim. apply Z.le_ngt in Hclaim; [|reflexivity| |].
  - apply Hclaim. reflexivity.
  - rewrite !elem_of_cons. auto 10.
  - intros d' level' Hin.
    rewrite !elem_of_cons, elem_of_nil in Hin.
    destruct_or!; simplify_eq. done.
Qed.

(** C8, amended. The call always ends, with an output or an exception, and
    more fuel than [max_steps + 1] iterations changes nothing. A run that
    ends with "accepted" or "rejected" ends at the depth it prints, which is
    the depth of its last level and is below [max_steps]. A run that stops
    at the step bound prints [max_steps] and stops at the depth
    [max (0, max_steps)] of its last level: at [max_steps] when the bound is
    not negative, at depth 0 when it is. So no level lies deeper than a
    bound that is not negative. Without a [max_steps] argument the bound is
    100. *)
Theorem simulation_ends_within_bound (a : Automata) (s : string)
    (ms : option Z) :
  (∃ r, simulate_ntm a s ms = Some r
        ∧ ∀ fuel, S (Z.to_nat (default default_max_steps ms)) ≤ fuel →
                  simulate_ntm_fuel fuel a s ms = Some r)
  ∧ (∀ out, simulate_ntm a s ms = Some (Return out) →
       (∀ D, StringAccepted D ∈ out ∨ StringRejected D ∈ out →
             (Z.of_nat D < default default_max_steps ms)%Z
             ∧ (∃ level, DepthLine D level ∈ out)
             ∧ ∀ d level, DepthLine d level ∈ out → d ≤ D)
       ∧ (∀ m, ExecutionStopped m ∈ out →
             m = default default_max_steps ms
             ∧ (∃ level,
                  DepthLine (Z.to_nat (default default_max_steps ms)) level
                  ∈ out)
             ∧ ∀ d level, DepthLine d level ∈ out →
                          d ≤ Z.to_nat (default default_max_steps ms))
       ∧ (∀ d level, DepthLine d level ∈ out →
             (Z.of_nat d ≤ Z.max 0 (default default_max_steps ms))%Z)
       ∧ ((0 ≤ default default_max_steps ms)%Z →
          ∀ d level, DepthLine d level ∈ out →
                     (Z.of_nat d ≤ default default_max_steps ms)%Z))
  ∧ default default_max_steps None = 100%Z
  ∧ simulate_ntm a s None = simulate_ntm a s (Some 100%Z).
Proof.
  split_and!; [| |done..].
  - destruct (simulate_ntm_is_Some a s ms) as [r Hrun]. exists r.
    split; [done|]. intros fuel Hle. by apply simulate_ntm_fuel_more.
  - intros out (st & HI & Hshape)%simulate_ntm_Return.
    pose proof (inv_bound _ _ _ _ HI) as Hb.
    pose proof (inv_length _ _ _ _ HI) as Hlen.
    destruct (lookup_lt_is_Some_2 (tree st) (depth st)) as [cur Hcur]; [lia|].
    destruct Hshape as [Hstop|[st1 Hhalt]].
    + pose proof (stopped_output_lines _ _ _ _ _ Hstop)
        as (Hlines & Hk & HA & HR & _).
      destruct Hstop as [Hge _].
      assert (depth st = Z.to_nat (default default_max_steps ms)) as Hd by lia.
      split_and!.
      * intros D [HD|HD]; [by apply HA in HD|by apply HR in HD].
      * intros m ->%Hk. split_and!; [done| |].
        -- exists cur. apply Hlines. by rewrite <- Hd.
        -- intros d level Hdl%Hlines%lookup_lt_Some. lia.
      * intros d level Hdl%Hlines%lookup_lt_Some. lia.
      * intros Hpos d level Hdl%Hlines%lookup_lt_Some. lia.
    + pose proof (halted_output_lines _ _ _ _ _ _ Hhalt)
        as (Hlines & Hk & HA & HR & _).
      destruct Hhalt as (Hlt & _).
      split_and!.
      * intros D HD.
        assert (D = depth st) as ->
          by (destruct HD as [[? _]%HA|[? _]%HR]; done).
        split_and!; [done| |].
        -- exists cur. by apply Hlines.
        -- intros d level Hdl%Hlines%lookup_lt_Some. lia.
      * by intros m ?%Hk.
      * intros d level Hdl%Hlines%lookup_lt_Some. lia.
      * intros Hpos d level Hdl%Hlines%lookup_lt_Some. lia.
Qed.

Lemma simulation_ends_within_bound_witness :
  (∃ r, simulate_ntm rejects_a "a" (Some 3%Z) = Some r
        ∧ ∀ fuel, 4 ≤ fuel →
                  simulate_ntm_fuel fuel rejects_a "a" (Some 3%Z) = Some r)
  ∧ (∀ out, simulate_ntm rejects_a "a" (Some 3%Z) = Some (Return out) →
       (∀ D, StringAccepted D ∈ out ∨ StringRejected D ∈ out →
             (Z.of_nat D < 3)%Z
             ∧ (∃ level, DepthLine D level ∈ out)
             ∧ ∀ d level, DepthLine d level ∈ out → d ≤ D)
       ∧ (∀ m, ExecutionStopped m ∈ out →
             m = 3%Z
             ∧ (∃ level, DepthLine 3 level ∈ out)
             ∧ ∀ d level, DepthLine d level ∈ out → d ≤ 3)
       ∧ (∀ d level, DepthLine d level ∈ out → (Z.of_nat d ≤ 3)%Z)
       ∧ ((0 ≤ 3)%Z →
          ∀ d level, DepthLine d level ∈ out → (Z.of_nat d ≤ 3)%Z))
  ∧ default default_max_steps None = 100%Z
  ∧ simulate_ntm rejects_a "a" None = simulate_ntm rejects_a "a" (Some 100%Z).
Proof.
  exact (simulation_ends_within_bound rejects_a "a" (Some 3%Z)).
Defined.

(** ** Malformed transition rules *)

(** A row that does not have five fields stops the loader. *)
Lemma unpack_row_arity (row : list string) :
  length row ≠ 5 → unpack_row row = Raise ValueError.
Proof. destruct row as [|?[|?[|?[|?[|?[|??]]]]]]; simpl; done. Qed.

Example read_ntm_short_row :
  read_ntm [["m"]; ["q0"; "qa"; "qr"]; ["a"]; ["a"; "_"]; ["q0"]; ["qa"];
            ["qr"]; ["q0"; "a"; "qa"; "a"]]
  = Raise ValueError.
Proof. reflexivity. Qed.

(** When the rule with the unknown move is the first one applied in the
    call, line 111 reads a name that was never bound. *)
Example unknown_move_first_raises :
  simulate_ntm unknown_move_first "a" None = Some (Raise UnboundLocalError).
Proof. vm_compute. reflexivity. Qed.

(** C9 (the code departs from the claim). In [unknown_move] the rule with the
    move symbol ["X"] is applied after a rule that moved right: [new_head]
    still holds 1 from that rule, the successor is built with it, and the run
    goes on to its verdict without any failure. *)
Theorem unknown_move_goes_unnoticed :
  ¬ well_formed unknown_move
  ∧ simulate_ntm unknown_move "a" None
    = Some (Return [NameOfMachine "unknown"; InitialString "a";
                    TotalTransitions 2; StringRejected 1;
                    TreeOfConfigurations;
                    DepthLine 0 [mkConfig "" "start" "a"];
                    DepthLine 1 [mkConfig "a" "start" "_";
                                 mkConfig "a" "p" "_"]]).
Proof.
  split.
  - unfold well_formed, unknown_move. simpl.
    intros Hall. apply Forall_cons in Hall as [_ Hall].
    apply Forall_cons in Hall as [[H|[H|H]] _]; discriminate H.
  - vm_compute. reflexivity.
Qed.

(** The part of C9 that holds: with known move symbols only, the call never
    raises, whatever the input and the bound. *)
Lemma well_formed_never_raises (a : Automata) (s : string) (ms : option Z)
    (e : PyError) :
  well_formed a → simulate_ntm a s ms ≠ Some (Raise e).
Proof.
  intros Hwf. destruct (simulate_ntm_well_formed a s ms Hwf) as [out ->].
  done.
Qed.

(** * Further properties of the code *)

(** ** The loader *)

Lemma unpack_row_Return (row : list string) (t : Transition) :
  unpack_row row = Return t ↔ row = row_of t.
Proof.
  split.
  - destruct row as [|a[|b[|c[|d[|e[|??]]]]]]; simpl; try done.
    by intros [= <-].
  - intros ->. by destruct t.
Qed.

Lemma read_rows_Return (rows : list (list string)) (ts : list Transition) :
  read_rows rows = Return ts ↔ rows = row_of <$> ts.
Proof.
  revert ts. induction rows as [|row rows IH]; intros ts; simpl.
  - split; [by intros [= <-]|]. by destruct ts.
  - rewrite bind_Return. split.
    + intros (t & Ht%unpack_row_Return & (ts' & Hts%IH & [= <-])%bind_Return).
      by subst.
    + destruct ts as [|t ts]; [done|]. intros [= -> ->].
      exists t. split; [by apply unpack_row_Return|].
      apply bind_Return. exists ts. split; [by apply IH|done].
Qed.

(** X1. [read_ntm] returns a machine exactly for rows that start with the
    seven header rows, the rows of the name and of the three states being
    non-empty, followed by one row of five fields per rule, in order: the
    machine is read back field for field, and the extra fields of the four
    one-field rows are ignored. *)
Theorem read_ntm_Return (reader : list (list string)) (a : Automata) :
  read_ntm reader = Return a ↔
  ∃ r1 r5 r6 r7,
    reader = (machine_name a :: r1) :: state_names a :: sigma a :: gamma a
             :: (start_state a :: r5) :: (accept_state a :: r6)
             :: (reject_state a :: r7) :: (row_of <$> transitions a).
Proof.
  split.
  - unfold read_ntm.
    destruct reader as [|[|name r1] [|names [|sig [|gam [|[|start r5]
      [|[|accept r6] [|[|reject r7] rows]]]]]]]; simpl; try done.
    intros (ts & Hts%read_rows_Return & [= <-])%bind_Return. simpl.
    exists r1, r5, r6, r7. by rewrite Hts.
  - intros (r1 & r5 & r6 & r7 & ->). unfold read_ntm. simpl.
    apply bind_Return. exists (transitions a).
    split; [by apply read_rows_Return|]. by destruct a.
Qed.

Lemma read_rows_Raise (rows : list (list string)) (e : PyError) :
  read_rows rows = Raise e ↔ e = ValueError ∧ Exists (λ row, length row ≠ 5) rows.
Proof.
  induction rows as [|row rows IH]; simpl.
  - split; [done|]. by intros [_ ?%Exists_nil].
  - destruct (unpack_row row) as [t|e'] eqn:Hrow; simpl.
    + apply unpack_row_Return in Hrow as ->.
      destruct (read_rows rows) as [ts|e'] eqn:Hrows; simpl.
      * split; [done|]. intros [-> [Hlen|Hex]%Exists_cons]; [done|].
        by destruct IH as [_ IH]; specialize (IH (conj eq_refl Hex)).
      * rewrite Exists_cons. split.
        -- intros [= <-]. destruct IH as [IH _].
           destruct (IH eq_refl) as [-> ?]. auto.
        -- intros [-> [Hlen|Hex]]; [done|].
           destruct IH as [_ IH]. by rewrite (IH (conj eq_refl Hex)).
    + assert (e' = ValueError ∧ length row ≠ 5) as [-> Hlen].
      { destruct row as [|a[|b[|c[|d[|f[|??]]]]]]; simpl in *; by simplify_eq. }
      rewrite Exists_cons. split; [intros [= <-]; auto|by intros [-> _]].
Qed.

(** X2. The loader raises [ValueError] exactly when the header is complete
    and some rule row does not have five fields. *)
Theorem read_ntm_ValueError (reader : list (list string)) :
  read_ntm reader = Raise ValueError ↔
  ∃ name r1 names sig gam start r5 accept r6 reject r7 rows,
    reader = (name :: r1) :: names :: sig :: gam :: (start :: r5)
             :: (accept :: r6) :: (reject :: r7) :: rows
    ∧ Exists (λ row, length row ≠ 5) rows.
Proof.
  split.
  - unfold read_ntm.
    destruct reader as [|[|name r1] [|names [|sig [|gam [|[|start r5]
      [|[|accept r6] [|[|reject r7] rows]]]]]]]; simpl; try done.
    destruct (read_rows rows) as [ts|e] eqn:Hrows; simpl; [done|].
    intros [= ->]. apply read_rows_Raise in Hrows as [_ Hex].
    by exists name, r1, names, sig, gam, start, r5, accept, r6, reject, r7, rows.
  - intros (name & r1 & names & sig & gam & start & r5 & accept & r6 & reject
            & r7 & rows & -> & Hex).
    unfold read_ntm. simpl.
    assert (read_rows rows = Raise ValueError) as Hrows
      by (by apply read_rows_Raise).
    by rewrite Hrows.
Qed.

(** Which header failure is raised. *)
(** X3. The loader raises [IndexError] exactly when one of the rows 0, 4, 5
    and 6 (name, start, accept and reject state) is present and empty, and
    [StopIteration] exactly when there are fewer than seven rows and none of
    those present is empty. It never raises [UnboundLocalError]. *)
Theorem read_ntm_header_errors (reader : list (list string)) :
  (read_ntm reader = Raise IndexError ↔
     reader !! 0 = Some [] ∨ reader !! 4 = Some [] ∨ reader !! 5 = Some []
     ∨ reader !! 6 = Some [])
  ∧ (read_ntm reader = Raise StopIteration ↔
       length reader < 7
       ∧ reader !! 0 ≠ Some [] ∧ reader !! 4 ≠ Some [] ∧ reader !! 5 ≠ Some [])
  ∧ read_ntm reader ≠ Raise UnboundLocalError.
Proof.
  unfold read_ntm.
  destruct reader as [|[|name r1] [|names [|sig [|gam [|[|start r5]
      [|[|accept r6] [|[|reject r7] rows]]]]]]]; simpl;
    try (split_and!; [naive_solver lia..]).
  destruct (read_rows rows) as [ts|e] eqn:Hrows; simpl.
  - split_and!; naive_solver lia.
  - apply read_rows_Raise in Hrows as [-> _]. split_and!; naive_solver lia.
Qed.

(** ** One rule on one configuration *)

Lemma write_cell_cells (t : Transition) (l r : string) :
  write_cell t (list_of_str (l +:+ r)) (String.length l)
  = list_of_str l ++ tape_write t :: list_of_str (after_head r).
Proof.
  unfold write_cell. rewrite list_of_str_app, length_app, !length_list_of_str.
  destruct r as [|x r]; simpl.
  - rewrite bool_decide_eq_false_2 by lia. by rewrite app_nil_r.
  - rewrite bool_decide_eq_true_2 by lia.
    rewrite <- (length_list_of_str l).
    rewrite (insert_app_r_alt _ _ (length (list_of_str l))) by lia.
    by rewrite Nat.sub_diag.
Qed.

(** X4. With the head on a cell holding the character [x], line 91 selects
    a rule exactly when its state is the current one and its [input_char] is
    the one-character string [x]. *)
Theorem matches_in_bounds (t : Transition) (q l : string) (x : Ascii.ascii)
    (r : string) :
  matches t q (list_of_str (l +:+ String x r)) (String.length l) = true
  ↔ current_state t = q ∧ input_char t = String x "".
Proof.
  unfold matches. rewrite list_of_str_app, length_app, length_list_of_str.
  simpl. rewrite (bool_decide_eq_true_2 (_ < _)) by lia.
  rewrite <- (length_list_of_str l), list_lookup_middle by done.
  rewrite andb_true_iff, !bool_decide_eq_true.
  split; intros [? ?]; split; congruence.
Qed.

Lemma successor_R (t : Transition) (l r : string)
    (stale : option Z) :
  head_move t = "R" →
  successor t (list_of_str (l +:+ r)) (String.length l) stale
  = Return (mkConfig (l +:+ tape_write t) (next_state t)
              (match after_head r with
               | EmptyString => "_"
               | rest => rest
               end),
            (Z.of_nat (String.length l) + 1)%Z).
Proof.
  intros Hmove. unfold successor, move_head. rewrite Hmove. simpl.
  rewrite write_cell_cells. unfold fit_bounds.
  rewrite bool_decide_eq_false_2 by lia.
  replace (Z.to_nat (Z.of_nat (String.length l) + 1)) with (S (String.length l))
    by lia.
  rewrite <- (length_list_of_str l).
  rewrite length_app. simpl.
  destruct (after_head r) as [|y rest] eqn:Hrest; simpl.
  - rewrite bool_decide_eq_true_2 by lia.
    rewrite take_app_length' by (rewrite length_app; simpl; lia).
    rewrite drop_app_length' by (rewrite length_app; simpl; lia).
    rewrite join_app, join_list_of_str. simpl. by rewrite str_app_nil_r.
  - rewrite bool_decide_eq_false_2 by lia.
    rewrite (cons_middle _ (list_of_str l)), !app_assoc.
    rewrite take_app_length' by (rewrite length_app; simpl; lia).
    rewrite drop_app_length' by (rewrite length_app; simpl; lia).
    rewrite join_app, join_list_of_str. simpl.
    by rewrite str_app_nil_r, join_list_of_str.
Qed.

Lemma successor_S (t : Transition) (l r : string) (stale : option Z) :
  head_move t = "S" →
  successor t (list_of_str (l +:+ r)) (String.length l) stale
  = Return (mkConfig l (next_state t) (tape_write t +:+ after_head r),
            Z.of_nat (String.length l)).
Proof.
  intros Hmove. unfold successor, move_head. rewrite Hmove. simpl.
  rewrite write_cell_cells. unfold fit_bounds.
  rewrite bool_decide_eq_false_2 by lia.
  rewrite Nat2Z.id.
  rewrite bool_decide_eq_false_2
    by (rewrite length_app, length_list_of_str; simpl; lia).
  rewrite take_app_length' by (by rewrite length_list_of_str).
  rewrite drop_app_length' by (by rewrite length_list_of_str).
  simpl. by rewrite !join_list_of_str.
Qed.

Lemma successor_L (t : Transition) (l r : string)
    (stale : option Z) :
  head_move t = "L" →
  (l = "" →
   successor t (list_of_str (l +:+ r)) (String.length l) stale
   = Return (mkConfig "" (next_state t)
               ("_" +:+ tape_write t +:+ after_head r), 0%Z))
  ∧ (∀ l0 x, l = l0 +:+ String x "" →
     successor t (list_of_str (l +:+ r)) (String.length l) stale
     = Return (mkConfig l0 (next_state t)
                 (String x "" +:+ tape_write t +:+ after_head r),
               Z.of_nat (String.length l0))).
Proof.
  intros Hmove. split.
  - intros ->. unfold successor, move_head. rewrite Hmove. simpl.
    change (list_of_str ("" +:+ r)) with (list_of_str r).
    pose proof (write_cell_cells t "" r) as Hw. simpl in Hw.
    change ("" +:+ r) with r in Hw. rewrite Hw. simpl.
    by rewrite join_list_of_str.
  - intros l0 x ->. unfold successor, move_head. rewrite Hmove. simpl.
    rewrite write_cell_cells. unfold fit_bounds.
    assert (String.length (l0 +:+ String x "") = S (String.length l0)) as Hlen.
    { rewrite <- !length_list_of_str, list_of_str_app, length_app. simpl. lia. }
    rewrite Hlen.
    rewrite bool_decide_eq_false_2 by lia.
    rewrite list_of_str_app. simpl.
    rewrite bool_decide_eq_false_2
      by (rewrite !length_app, length_list_of_str; simpl; lia).
    replace (Z.to_nat (Z.of_nat (S (String.length l0)) - 1))
      with (length (list_of_str l0)) by (rewrite length_list_of_str; lia).
    rewrite <- !app_assoc.
    rewrite take_app_length, drop_app_length. simpl.
    rewrite !join_list_of_str.
    do 2 f_equal. lia.
Qed.

(** X5. The successor configuration for each known move, whatever
    [new_head] held before. Right: the written symbol joins the left part and
    the head is on the next cell, a fresh blank when there was none. Stay:
    the head is on the written symbol. Left: the head is on the last cell of
    the left part, a fresh blank when the left part was empty. *)
Theorem successor_follows_move (t : Transition) (l r : string)
    (stale : option Z) :
  (head_move t = "R" →
   successor t (list_of_str (l +:+ r)) (String.length l) stale
   = Return (mkConfig (l +:+ tape_write t) (next_state t)
               (match after_head r with
                | EmptyString => "_"
                | rest => rest
                end),
             (Z.of_nat (String.length l) + 1)%Z))
  ∧ (head_move t = "S" →
     successor t (list_of_str (l +:+ r)) (String.length l) stale
     = Return (mkConfig l (next_state t) (tape_write t +:+ after_head r),
               Z.of_nat (String.length l)))
  ∧ (head_move t = "L" → l = "" →
     successor t (list_of_str (l +:+ r)) (String.length l) stale
     = Return (mkConfig "" (next_state t)
                 ("_" +:+ tape_write t +:+ after_head r), 0%Z))
  ∧ (head_move t = "L" → ∀ l0 x, l = l0 +:+ String x "" →
     successor t (list_of_str (l +:+ r)) (String.length l) stale
     = Return (mkConfig l0 (next_state t)
                 (String x "" +:+ tape_write t +:+ after_head r),
               Z.of_nat (String.length l0))).
Proof.
  split_and!.
  - apply successor_R.
  - apply successor_S.
  - intros HL. by apply successor_L.
  - intros HL. by apply successor_L.
Qed.

Lemma for_transitions_Return (ts : list Transition) (q : string)
    (tape : list string) (head : nat) (st st' : Locals) :
  for_transitions ts q tape head st = Return st' →
  ∃ cs,
    Forall2 (successor_of tape head) (selected ts q tape head) cs
    ∧ next_level st' = next_level st ++ cs
    ∧ total_transitions st' = total_transitions st + length cs
    ∧ accept_count st' = accept_count st
    ∧ reject_count st' = reject_count st.
Proof.
  revert st. induction ts as [|t ts IH]; intros st; simpl.
  - intros [= <-]. exists [].
    split_and!; [constructor|by rewrite app_nil_r|simpl; lia|done|done].
  - unfold selected. rewrite filter_cons.
    destruct (matches t q tape head) eqn:Hm.
    + rewrite decide_True by done.
      intros (st1 & H1 & H2)%bind_Return.
      apply apply_transition_Return in H1 as (c & h & Hsucc & ->).
      apply IH in H2 as (cs & HF & Hn & Ht & Ha & Hr). simpl in *.
      exists (c :: cs). split_and!; [| | |done|done].
      * constructor; [|done]. by exists (new_head st), h.
      * by rewrite Hn, <- app_assoc.
      * rewrite Ht. simpl. lia.
    + rewrite decide_False by done. apply IH.
Qed.

(** X6. The loop over the table appends one successor per selected rule, in
    table order, counts one transition for each, and leaves the accept and
    reject counters alone. *)
Theorem for_transitions_in_table_order (ts : list Transition) (q : string)
    (tape : list string) (head : nat) (st st' : Locals) :
  for_transitions ts q tape head st = Return st' →
  ∃ cs,
    Forall2 (successor_of tape head) (selected ts q tape head) cs
    ∧ next_level st' = next_level st ++ cs
    ∧ total_transitions st' = total_transitions st + length cs
    ∧ accept_count st' = accept_count st
    ∧ reject_count st' = reject_count st.
Proof. apply for_transitions_Return. Qed.

Lemma for_transitions_in_table_order_witness :
  ∃ cs,
    Forall2 (successor_of ["a"] 0)
      (selected (transitions two_branches) "start" ["a"] 0) cs
    ∧ [mkConfig "a" "p" "_"; mkConfig "" "q" "_b"] = [] ++ cs
    ∧ 2 = 0 + length cs
    ∧ 0 = 0
    ∧ 0 = 0.
Proof.
  apply (for_transitions_in_table_order (transitions two_branches) "start"
           ["a"] 0 (mkLocals [] 0 0 0 0 None [] [])
           (mkLocals [] 2 0 0 0 (Some 0%Z)
              [mkConfig "a" "p" "_"; mkConfig "" "q" "_b"] [])).
  vm_compute. reflexivity.
Defined.

(** ** The levels of a run *)

Lemma visit_live (a : Automata) (c : Config) (st : Locals) :
  live a c →
  visit a c st
  = for_transitions (transitions a) (state c) (tape_of c) (head_of c) st.
Proof.
  intros [Hna Hnr]. unfold visit. by rewrite !bool_decide_eq_false_2.
Qed.

Lemma config_cases (a : Automata) (c : Config) :
  accepting a c ∨ copied a c ∨ live a c.
Proof.
  unfold accepting, copied, live.
  destruct (decide (state c = accept_state a));
    destruct (decide (state c = reject_state a)); auto.
Qed.

Lemma elem_of_selected (ts : list Transition) (q : string)
    (tape : list string) (head : nat) (t : Transition) :
  t ∈ selected ts q tape head ↔ t ∈ ts ∧ matches t q tape head = true.
Proof. unfold selected. rewrite list_elem_of_filter. tauto. Qed.

Lemma for_configs_summary (a : Automata) (level : list Config)
    (st st1 : Locals) :
  for_configs a level st = Return st1 →
  accept_count st1 = accept_count st + count_accepting a level
  ∧ total_transitions st1 + count_copied a level + length (next_level st)
    = total_transitions st + length (next_level st1)
  ∧ ∀ c', c' ∈ next_level st1 →
          c' ∈ next_level st
          ∨ ∃ c, c ∈ level ∧ (copied a c ∧ c' = c ∨ yields a c c').
Proof.
  unfold count_accepting, count_copied.
  revert st. induction level as [|c level IH]; intros st; simpl.
  - intros [= <-]. split_and!; [lia|lia|auto].
  - intros (st0 & Hv & (HA & HT & HN)%IH)%bind_Return.
    rewrite !filter_cons.
    destruct (config_cases a c) as [Hacc|[Hcop|Hlive]].
    + rewrite (visit_accept _ _ _ Hacc) in Hv. injection Hv as <-.
      simpl in *. rewrite decide_True by done.
      rewrite decide_False by (by intros [? _]).
      split_and!; [simpl; lia|lia|].
      intros c' [?|(c0 & ? & ?)]%HN; [by left|right].
      exists c0. split; [by right|done].
    + destruct Hcop as [Hna Hr].
      rewrite (visit_reject _ _ _ Hna Hr) in Hv. injection Hv as <-.
      simpl in *. rewrite decide_False by done.
      rewrite decide_True by done. rewrite length_app in HT. simpl in *.
      split_and!; [lia|lia|].
      intros c' [[?| ->%list_elem_of_singleton ]%elem_of_app|(c0 & ? & ?)]%HN.
      * by left.
      * right. exists c. split; [by left|]. by left.
      * right. exists c0. split; [by right|done].
    + rewrite (visit_live _ _ _ Hlive) in Hv.
      apply for_transitions_Return in Hv
        as (cs & HF & Hn & Ht & Ha & _).
      destruct Hlive as [Hna Hnr].
      rewrite decide_False by done.
      rewrite decide_False by (by intros [_ ?]).
      rewrite Hn, length_app in HT.
      split_and!; [lia|lia|].
      intros c' [Hin|(c0 & ? & ?)]%HN.
      * rewrite Hn in Hin. apply elem_of_app in Hin as [?|Hin]; [by left|].
        right. exists c. split; [by left|]. right.
        split; [done|].
        apply list_elem_of_lookup in Hin as [i Hi].
        destruct (Forall2_lookup_r _ _ _ _ _ HF Hi) as (t & Ht' & Hs).
        apply list_elem_of_lookup_2, elem_of_selected in Ht' as [? ?].
        by exists t.
      * right. exists c0. split; [by right|done].
Qed.

Lemma Trace_inv_initial (a : Automata) (s : string) :
  Trace_inv a s (initial_locals a s).
Proof.
  split; simpl; try done.
  - repeat constructor. done.
  - repeat constructor.
Qed.

Lemma Trace_inv_step (a : Automata) (s : string) (k : Z) (st st' : Locals) :
  Trace_inv a s st → step a k st st' → Trace_inv a s st'.
Proof.
  intros [Hlen Hfirst Hne Hacc Htot Hreach]
    [_ (cur & st1 & Hlast & Hfor & Hnl & ->)%iteration_Continue].
  pose proof (for_configs_grows _ _ _ _ Hfor) as [HT HD _ _ _ _].
  apply for_configs_summary in Hfor as (HA & HC & HN).
  apply last_Some in Hlast as [pre Hpre].
  simpl in *. rewrite HT, HD. rewrite Hpre in *.
  rewrite length_app in Hlen. simpl in Hlen.
  assert (depth st = length pre) as Hd by lia.
  rewrite Hd in *. rewrite take_app_length in Hacc, Htot.
  split; simpl.
  - rewrite !length_app. simpl. lia.
  - rewrite lookup_app_l; [done|]. rewrite length_app. simpl. lia.
  - apply Forall_app. split; [done|]. by repeat constructor.
  - rewrite take_app_length' by (rewrite length_app; simpl; lia).
    rewrite sum_list_with_app. simpl. lia.
  - rewrite take_app_length' by (rewrite length_app; simpl; lia).
    rewrite drop_app_le by (rewrite length_app; simpl; lia).
    rewrite !sum_list_with_app. simpl. lia.
  - apply Forall_app. split; [done|]. constructor; [|constructor].
    apply Forall_forall. intros c' [[]%elem_of_nil|(c & Hc & Hprod)]%HN.
    apply Forall_app in Hreach as [_ Hcur].
    apply Forall_cons in Hcur as [Hcur _].
    rewrite Forall_forall in Hcur. specialize (Hcur c Hc).
    destruct Hprod as [[_ ->]|Hy]; [done|].
    by eapply reachable_next.
Qed.

Lemma rtc_step_Trace_inv (a : Automata) (s : string) (k : Z)
    (st st1 : Locals) :
  rtc (step a k) st st1 → Trace_inv a s st → Trace_inv a s st1.
Proof. induction 1; eauto using Trace_inv_step. Qed.

Lemma levels_imap (f : nat → nat) (t : list (list Config)) :
  levels (imap (λ i, DepthLine (f i)) t) = t.
Proof.
  revert f. induction t as [|level t IH]; intros f; [done|].
  rewrite imap_cons. unfold levels in *. simpl. f_equal. apply (IH (f ∘ S)).
Qed.

Lemma run_summary (a : Automata) (s : string) (ms : option Z)
    (out : list Line) :
  simulate_ntm a s ms = Some (Return out) →
  ∃ st, rtc (step a (default default_max_steps ms)) (initial_locals a s) st
        ∧ Inv a s (default default_max_steps ms) st
        ∧ Trace_inv a s st
        ∧ levels out = tree st
        ∧ (stopped_output a s (default default_max_steps ms) st out
           ∨ ∃ st1, halted_output a s (default default_max_steps ms) st st1 out).
Proof.
  unfold simulate_ntm, simulate_ntm_fuel.
  set (k := default default_max_steps ms).
  destruct (while_loop _ _ _ _) as [[fin|e]|] eqn:Hloop; [|done..].
  intros [= <-].
  apply while_loop_Return in Hloop as (st & Hrtc & Hend).
  pose proof (rtc_step_Inv _ s _ _ _ Hrtc (Inv_initial a s k)) as HI.
  pose proof (rtc_step_Trace_inv _ s _ _ _ Hrtc (Trace_inv_initial a s)) as HT.
  exists st. split; [done|]. split; [done|]. split; [done|].
  destruct Hend as [[Hge ->]|[Hlt Hit]].
  - assert (stopped_output a s k st (stdout (stopped k st))) as Hshape.
    { split; [done|]. simpl. rewrite (inv_stdout _ _ _ _ HI).
      by rewrite <- !app_assoc. }
    split; [|by left].
    destruct Hshape as [_ ->]. unfold levels.
    rewrite !omap_app. simpl. rewrite app_nil_r. apply (levels_imap id).
  - apply iteration_Returned in Hit
      as (cur & st1 & Hlast & Hfor & Hnil & Hout).
    rewrite (Inv_last _ _ _ _ HI) in Hlast.
    assert (halted_output a s k st st1 (stdout fin)) as Hshape.
    { split; [done|]. split; [eauto|]. split; [done|].
      by rewrite Hout, (inv_stdout _ _ _ _ HI). }
    split; [|by eauto].
    destruct Hshape as (_ & _ & _ & ->). unfold levels, verdict_line.
    rewrite !omap_app. simpl.
    destruct (accept_count st1); apply (levels_imap id).
Qed.

(** X7. The output of a completed run has one of three shapes. Either the
    two header lines, the total, "accepted" or "rejected" with the depth of
    the last level, and the tree; or the header, the tree, the step-bound
    message and the total. The tree lists the levels with the depths 0, 1,
    2, ... in order; level 0 is the initial configuration alone, no level is
    empty, a verdict comes with at most [max_steps] levels and the step-bound
    message with exactly [max_steps + 1]. *)
Theorem output_shape (a : Automata) (s : string) (ms : option Z)
    (out : list Line) :
  simulate_ntm a s ms = Some (Return out) →
  levels out !! 0 = Some [mkConfig "" (start_state a) s]
  ∧ Forall (λ level, level ≠ []) (levels out)
  ∧ ∃ n,
      ((Z.of_nat (length (levels out)) ≤ default default_max_steps ms)%Z
       ∧ (out = [NameOfMachine (machine_name a); InitialString s;
                 TotalTransitions n;
                 StringAccepted (length (levels out) - 1);
                 TreeOfConfigurations]
                ++ imap DepthLine (levels out)
          ∨ out = [NameOfMachine (machine_name a); InitialString s;
                   TotalTransitions n;
                   StringRejected (length (levels out) - 1);
                   TreeOfConfigurations]
                  ++ imap DepthLine (levels out)))
      ∨ (length (levels out) = S (Z.to_nat (default default_max_steps ms))
         ∧ out = [NameOfMachine (machine_name a); InitialString s;
                  TreeOfConfigurations]
                 ++ imap DepthLine (levels out)
                 ++ [ExecutionStopped (default default_max_steps ms);
                     TotalTransitions n]).
Proof.
  intros (st & _ & HI & HT & Hlev & Hshape)%run_summary. rewrite Hlev.
  pose proof (tinv_length _ _ _ HT) as Hlen.
  pose proof (inv_bound _ _ _ _ HI) as Hb.
  split_and!.
  - rewrite (tinv_first _ _ _ HT). unfold initial_config.
    by rewrite join_list_of_str.
  - apply (tinv_nonempty _ _ _ HT).
  - destruct Hshape as [[Hge ->]|(st1 & Hlt & (cur & _ & Hfor) & _ & ->)].
    + exists (total_transitions st). right. split; [lia|done].
    + exists (total_transitions st1). left. split; [lia|].
      apply for_configs_grows in Hfor as [_ HD _ _ _ _]. simpl in HD.
      unfold verdict_line, header. rewrite HD, Hlen. simpl. rewrite Nat.sub_0_r.
      destruct (accept_count st1); auto.
Qed.

Lemma output_shape_witness :
  levels late_sibling_output !! 0
  = Some [mkConfig "" (start_state late_sibling) "a"]
  ∧ Forall (λ level, level ≠ []) (levels late_sibling_output)
  ∧ ∃ n,
      ((Z.of_nat (length (levels late_sibling_output))
        ≤ default default_max_steps None)%Z
       ∧ (late_sibling_output
          = [NameOfMachine (machine_name late_sibling); InitialString "a";
             TotalTransitions n;
             StringAccepted (length (levels late_sibling_output) - 1);
             TreeOfConfigurations]
            ++ imap DepthLine (levels late_sibling_output)
          ∨ late_sibling_output
            = [NameOfMachine (machine_name late_sibling); InitialString "a";
               TotalTransitions n;
               StringRejected (length (levels late_sibling_output) - 1);
               TreeOfConfigurations]
              ++ imap DepthLine (levels late_sibling_output)))
      ∨ (length (levels late_sibling_output)
         = S (Z.to_nat (default default_max_steps None))
         ∧ late_sibling_output
           = [NameOfMachine (machine_name late_sibling); InitialString "a";
              TreeOfConfigurations]
             ++ imap DepthLine (levels late_sibling_output)
             ++ [ExecutionStopped (default default_max_steps None);
                 TotalTransitions n]).
Proof.
  apply (output_shape late_sibling "a" None late_sibling_output).
  exact late_sibling_on_a.
Defined.

(** X8. The total printed plus the number of rejecting configurations
    copied forward (those of every level but the last) is the number of
    configurations in the levels after level 0: every configuration of the
    trace past level 0 is either one applied rule or one copy. *)
Theorem total_counts_applied_rules (a : Automata) (s : string)
    (ms : option Z) (out : list Line) (n : nat) :
  simulate_ntm a s ms = Some (Return out) →
  TotalTransitions n ∈ out →
  n + sum_list_with (count_copied a)
        (take (length (levels out) - 1) (levels out))
  = sum_list_with length (drop 1 (levels out)).
Proof.
  intros (st & _ & HI & HT & Hlev & Hshape)%run_summary Hn. rewrite Hlev.
  pose proof (tinv_length _ _ _ HT) as Hlen.
  pose proof (tinv_total _ _ _ HT) as Htot.
  rewrite Hlen. simpl. rewrite Nat.sub_0_r.
  destruct Hshape as [Hstop|[st1 Hhalt]].
  - apply stopped_output_lines in Hstop as (_ & _ & _ & _ & Htotal).
    apply Htotal in Hn as ->. done.
  - pose proof (halted_output_lines _ _ _ _ _ _ Hhalt)
      as (_ & _ & _ & _ & Htotal).
    apply Htotal in Hn as ->.
    destruct Hhalt as (_ & (cur & _ & Hfor) & Hnil & _).
    pose proof (for_configs_grows _ _ _ _ Hfor) as [_ _ _ Hge _ _].
    apply for_configs_summary in Hfor as (_ & HC & _).
    rewrite Hnil in HC. simpl in *. lia.
Qed.

Lemma total_counts_applied_rules_witness :
  1 + sum_list_with (count_copied rejects_a)
        (take (length (levels rejects_a_output) - 1)
           (levels rejects_a_output))
  = sum_list_with length (drop 1 (levels rejects_a_output)).
Proof.
  apply (total_counts_applied_rules rejects_a "a" (Some 3%Z)
           rejects_a_output 1).
  - exact rejects_a_on_a.
  - unfold rejects_a_output. rewrite !elem_of_cons. auto 12.
Defined.

Lemma count_accepting_pos (a : Automata) (t : list (list Config)) :
  0 < sum_list_with (count_accepting a) t →
  ∃ level c, level ∈ t ∧ c ∈ level ∧ state c = accept_state a.
Proof.
  induction t as [|level t IH]; simpl; [lia|]. intros Hpos.
  destruct (decide (0 < count_accepting a level)) as [Hl|Hl].
  - unfold count_accepting in Hl.
    destruct (filter (accepting a) level) as [|c l] eqn:Hf; [simpl in Hl; lia|].
    assert (c ∈ filter (accepting a) level) as Hc by (rewrite Hf; left).
    apply list_elem_of_filter in Hc as [Hacc Hc].
    exists level, c. split_and!; [left|done|done].
  - destruct IH as (level' & c & ? & ? & ?); [lia|].
    exists level', c. split_and!; [by right|done|done].
Qed.

(** X9. A run prints "accepted" only when some configuration of the trace
    is in the accept state, and "rejected" only when none is. *)
Theorem verdict_matches_trace (a : Automata) (s : string) (ms : option Z)
    (out : list Line) :
  simulate_ntm a s ms = Some (Return out) →
  (∀ D, StringAccepted D ∈ out →
        ∃ level c, level ∈ levels out ∧ c ∈ level
                   ∧ state c = accept_state a)
  ∧ (∀ D, StringRejected D ∈ out →
          ∀ level c, level ∈ levels out → c ∈ level →
                     state c ≠ accept_state a).
Proof.
  intros (st & _ & HI & HT & Hlev & Hshape)%run_summary. rewrite Hlev.
  destruct Hshape as [Hstop|[st1 Hhalt]].
  { apply stopped_output_lines in Hstop as (_ & _ & HA & HR & _).
    split; intros D HD; [by apply HA in HD|by apply HR in HD]. }
  pose proof (halted_output_lines _ _ _ _ _ _ Hhalt) as (_ & _ & HA & HR & _).
  destruct Hhalt as (_ & (cur & Hcur & Hfor) & _ & _).
  apply for_configs_summary in Hfor as (Hcount & _ & _). simpl in Hcount.
  pose proof (tinv_length _ _ _ HT) as Hlen.
  rewrite (tinv_accept _ _ _ HT) in Hcount.
  assert (tree st = take (depth st) (tree st) ++ [cur]) as Htree.
  { rewrite <- (take_drop (depth st) (tree st)) at 1. f_equal.
    apply list_eq. intros [|i]; rewrite lookup_drop; simpl.
    - by rewrite Nat.add_0_r.
    - apply lookup_ge_None. lia. }
  assert (accept_count st1 = sum_list_with (count_accepting a) (tree st))
    as Hsum.
  { rewrite Htree, sum_list_with_app. simpl. lia. }
  clear Hcount Htree. split.
  - intros D [_ Hpos]%HA. rewrite Hsum in Hpos.
    by apply count_accepting_pos.
  - intros D [_ Hzero]%HR level c Hlevel Hc Hacc. rewrite Hsum in Hzero.
    pose proof (sum_list_with_in _ (count_accepting a) _ Hlevel) as Hle.
    assert (count_accepting a level = 0) as Hl by lia.
    unfold count_accepting in Hl. apply length_zero_iff_nil in Hl.
    assert (c ∈ filter (accepting a) level) as Hin
      by (by apply list_elem_of_filter).
    rewrite Hl in Hin. by apply elem_of_nil in Hin.
Qed.

Lemma verdict_matches_trace_witness :
  (∀ D, StringAccepted D ∈ late_sibling_output →
        ∃ level c, level ∈ levels late_sibling_output ∧ c ∈ level
                   ∧ state c = accept_state late_sibling)
  ∧ (∀ D, StringRejected D ∈ late_sibling_output →
          ∀ level c, level ∈ levels late_sibling_output → c ∈ level →
                     state c ≠ accept_state late_sibling).
Proof.
  apply (verdict_matches_trace late_sibling "a" None late_sibling_output).
  exact late_sibling_on_a.
Defined.

Lemma levels_reachable (a : Automata) (s : string) (ms : option Z)
    (out : list Line) (level : list Config) (c : Config) :
  simulate_ntm a s ms = Some (Return out) →
  level ∈ levels out → c ∈ level →
  reachable a s c.
Proof.
  intros (st & _ & _ & HT & Hlev & _)%run_summary Hlevel Hc. rewrite Hlev in Hlevel.
  pose proof (tinv_reachable _ _ _ HT) as Hall.
  rewrite Forall_forall in Hall. specialize (Hall _ Hlevel).
  rewrite Forall_forall in Hall. auto.
Qed.

(** X10. Every configuration of the trace is reachable: it is the initial
    configuration, or the successor, by a rule of the table that line 91
    selects, of a reachable configuration that is in neither the accept nor
    the reject state. *)
Theorem trace_reachable (a : Automata) (s : string) (ms : option Z)
    (out : list Line) (level : list Config) (c : Config) :
  simulate_ntm a s ms = Some (Return out) →
  level ∈ levels out → c ∈ level →
  reachable a s c.
Proof. apply levels_reachable. Qed.

Lemma trace_reachable_witness :
  reachable late_sibling "a" (mkConfig "" "q" "a").
Proof.
  apply (trace_reachable late_sibling "a" None late_sibling_output
           [mkConfig "" "q" "a"] (mkConfig "" "q" "a")).
  - exact late_sibling_on_a.
  - unfold levels, late_sibling_output. simpl. rewrite !elem_of_cons. auto.
  - apply list_elem_of_here.
Defined.

Lemma reachable_state (a : Automata) (s : string) (c : Config) :
  reachable a s c →
  state c = start_state a ∨ ∃ t, t ∈ transitions a ∧ state c = next_state t.
Proof.
  induction 1 as [|c c' _ _ (_ & t & Ht & _ & stale & h & Hs)]; [by left|].
  right. exists t. split; [done|].
  by apply successor_Return in Hs as (? & ? & _ & _ & ->).
Qed.

(** X11. The state of every configuration of the trace is the start state
    or the [next_state] of a rule of the table. *)
Theorem trace_states (a : Automata) (s : string) (ms : option Z)
    (out : list Line) (level : list Config) (c : Config) :
  simulate_ntm a s ms = Some (Return out) →
  level ∈ levels out → c ∈ level →
  state c = start_state a ∨ ∃ t, t ∈ transitions a ∧ state c = next_state t.
Proof.
  intros Hrun Hlevel Hc. apply (reachable_state a s).
  by eapply levels_reachable.
Qed.

Lemma trace_states_witness :
  state (mkConfig "" "q" "a") = start_state late_sibling
  ∨ ∃ t, t ∈ transitions late_sibling
         ∧ state (mkConfig "" "q" "a") = next_state t.
Proof.
  apply (trace_states late_sibling "a" None late_sibling_output
           [mkConfig "" "q" "a"] (mkConfig "" "q" "a")).
  - exact late_sibling_on_a.
  - unfold levels, late_sibling_output. simpl. rewrite !elem_of_cons. auto.
  - apply list_elem_of_here.
Defined.

(** ** The trace as a breadth-first search *)

Lemma successor_known_stale (t : Transition) (tape : list string)
    (head : nat) (stale : option Z) :
  known_move t → successor t tape head stale = successor t tape head None.
Proof.
  intros Hk. unfold successor, move_head.
  destruct Hk as [ -> | [ -> | -> ] ]; done.
Qed.

Lemma for_transitions_expand (ts : list Transition) (c : Config)
    (st st' : Locals) :
  Forall known_move ts →
  for_transitions ts (state c) (tape_of c) (head_of c) st = Return st' →
  next_level st'
  = next_level st
    ++ omap (λ t, successor_config t c)
         (selected ts (state c) (tape_of c) (head_of c)).
Proof.
  intros Hwf (cs & HF & -> & _)%for_transitions_Return. f_equal.
  assert (Forall known_move (selected ts (state c) (tape_of c) (head_of c)))
    as Hsel.
  { apply Forall_forall. intros t [Ht _]%elem_of_selected.
    rewrite Forall_forall in Hwf. auto. }
  induction HF as [|t c' sel cs (stale & h & Hs) _ IH]; [done|].
  apply Forall_cons in Hsel as [Hk Hsel]. simpl.
  unfold successor_config at 1.
  rewrite <- (successor_known_stale _ _ _ stale Hk), Hs. simpl.
  f_equal. by apply IH.
Qed.

Lemma for_configs_expand (a : Automata) (level : list Config)
    (st st1 : Locals) :
  well_formed a →
  for_configs a level st = Return st1 →
  next_level st1 = next_level st ++ (level ≫= expand a).
Proof.
  intros Hwf. revert st. induction level as [|c level IH]; intros st; simpl.
  - intros [= <-]. by rewrite app_nil_r.
  - intros (st0 & Hv & ->%IH)%bind_Return.
    rewrite app_assoc. f_equal. unfold expand.
    destruct (config_cases a c) as [Hacc|[[Hna Hr]|[Hna Hnr]]].
    + rewrite (visit_accept _ _ _ Hacc) in Hv. injection Hv as <-.
      rewrite bool_decide_eq_true_2 by done. simpl. by rewrite app_nil_r.
    + rewrite (visit_reject _ _ _ Hna Hr) in Hv. injection Hv as <-.
      by rewrite bool_decide_eq_false_2, bool_decide_eq_true_2.
    + rewrite (visit_live _ _ _ (conj Hna Hnr)) in Hv.
      rewrite !bool_decide_eq_false_2 by done.
      by apply for_transitions_expand.
Qed.

Lemma Bfs_inv_step (a : Automata) (s : string) (k : Z) (st st' : Locals) :
  well_formed a → Bfs_inv a s st → step a k st st' → Bfs_inv a s st'.
Proof.
  intros Hwf (pre & cur & Htree & Hbfs)
    [_ (cur' & st1 & Hlast & Hfor & Hnl & ->)%iteration_Continue].
  rewrite Htree, last_snoc in Hlast. injection Hlast as <-.
  pose proof (for_configs_grows _ _ _ _ Hfor) as [HT _ _ _ _ _].
  apply for_configs_expand in Hfor; [|done]. simpl in *.
  exists (pre ++ [cur]), (next_level st1). split; [by rewrite HT, Htree|].
  intros n. rewrite length_app. simpl.
  replace (length pre + 1 + n) with (length pre + S n) by lia.
  rewrite Hbfs. simpl. rewrite <- Hfor, <- app_assoc.
  by destruct (next_level st1).
Qed.

Lemma Bfs_inv_initial (a : Automata) (s : string) :
  Bfs_inv a s (initial_locals a s).
Proof. exists [], [initial_config a s]. split; [reflexivity|]. by intros n. Qed.

Lemma rtc_step_Bfs_inv (a : Automata) (s : string) (k : Z) (st st1 : Locals) :
  well_formed a →
  rtc (step a k) st st1 → Bfs_inv a s st → Bfs_inv a s st1.
Proof. intros Hwf. induction 1; eauto using Bfs_inv_step. Qed.

(** X12. For a machine whose move symbols are all known the call returns,
    and the levels it prints are those of the breadth-first search [bfs]:
    each level is the concatenation, in order, of what its predecessor's
    configurations expand to (nothing for an accepting one, itself for a
    rejecting one, one successor per selected rule otherwise), the search
    stopping at the first empty expansion or after [max_steps] levels. *)
Theorem trace_is_breadth_first (a : Automata) (s : string) (ms : option Z) :
  well_formed a →
  ∃ out, simulate_ntm a s ms = Some (Return out)
         ∧ levels out
           = bfs a (Z.to_nat (default default_max_steps ms))
               [initial_config a s].
Proof.
  intros Hwf. destruct (simulate_ntm_well_formed a s ms Hwf) as [out Hrun].
  exists out. split; [done|].
  apply run_summary in Hrun as (st & Hrtc & HI & HT & -> & Hshape).
  pose proof (rtc_step_Bfs_inv _ s _ _ _ Hwf Hrtc (Bfs_inv_initial a s))
    as (pre & cur & Htree & Hbfs).
  pose proof (inv_length _ _ _ _ HI) as Hlen.
  pose proof (inv_bound _ _ _ _ HI) as Hb.
  rewrite Htree, length_app in Hlen. simpl in Hlen.
  destruct Hshape as [[Hge _]|(st1 & Hlt & (cur' & Hcur & Hfor) & Hnil & _)].
  - replace (Z.to_nat (default default_max_steps ms)) with (length pre + 0)
      by lia.
    by rewrite Hbfs, Htree.
  - replace (Z.to_nat (default default_max_steps ms))
      with (length pre + S (Z.to_nat (default default_max_steps ms)
                            - S (length pre))) by lia.
    rewrite Hbfs, Htree. f_equal. simpl.
    replace (depth st) with (length pre) in Hcur by lia.
    rewrite Htree, list_lookup_middle in Hcur by done.
    injection Hcur as <-.
    apply for_configs_expand in Hfor; [|done]. simpl in Hfor.
    by rewrite <- Hfor, Hnil.
Qed.

Lemma late_sibling_well_formed : well_formed late_sibling.
Proof.
  unfold well_formed. simpl.
  repeat (apply Forall_cons_2; [unfold known_move; simpl; auto|]).
  apply Forall_nil_2.
Defined.

Lemma trace_is_breadth_first_witness :
  ∃ out, simulate_ntm late_sibling "a" None = Some (Return out)
         ∧ levels out
           = bfs late_sibling (Z.to_nat (default default_max_steps None))
               [initial_config late_sibling "a"].
Proof.
  apply (trace_is_breadth_first late_sibling "a" None).
  exact late_sibling_well_formed.
Defined.

(** ** When the call raises *)

Lemma for_transitions_bound (ts : list Transition) (q : string)
    (tape : list string) (head : nat) (st : Locals) :
  is_Some (new_head st) →
  ∃ st', for_transitions ts q tape head st = Return st'
         ∧ is_Some (new_head st').
Proof.
  revert st. induction ts as [|t ts IH]; intros st Hb; simpl; [eauto|].
  destruct (matches t q tape head); [|by apply IH].
  assert (∃ st1, apply_transition t tape head st = Return st1
                 ∧ is_Some (new_head st1)) as (st1 & -> & Hb1).
  { unfold apply_transition, successor, move_head. simpl.
    destruct Hb as [h0 ->].
    repeat case_bool_decide; simpl;
      destruct (fit_bounds _ _); simpl; eauto. }
  simpl. by apply IH.
Qed.

Lemma visit_bound (a : Automata) (c : Config) (st : Locals) :
  is_Some (new_head st) →
  ∃ st', visit a c st = Return st' ∧ is_Some (new_head st').
Proof.
  intros Hb. unfold visit. repeat case_bool_decide; eauto.
  by apply for_transitions_bound.
Qed.

Lemma for_configs_bound (a : Automata) (level : list Config) (st : Locals) :
  is_Some (new_head st) →
  ∃ st', for_configs a level st = Return st' ∧ is_Some (new_head st').
Proof.
  revert st. induction level as [|c level IH]; intros st Hb; simpl; [eauto|].
  destruct (visit_bound a c st Hb) as (st1 & -> & Hb1). simpl. by apply IH.
Qed.

Lemma for_configs_halted (a : Automata) (level : list Config) (st : Locals) :
  (∀ c, c ∈ level → ¬ live a c) →
  ∃ st', for_configs a level st = Return st'
         ∧ new_head st' = new_head st
         ∧ ∀ c, c ∈ next_level st' → c ∈ next_level st ∨ ¬ live a c.
Proof.
  revert st. induction level as [|c level IH]; intros st Hall; simpl.
  - exists st. auto.
  - assert (¬ live a c) as Hc by (apply Hall; left).
    destruct (config_cases a c) as [Hacc|[[Hna Hr]|?]]; [| |done].
    + rewrite (visit_accept _ _ _ Hacc). simpl.
      destruct (IH (set_accept_count (accept_count st + 1) st))
        as (st' & -> & Hh & Hn); [intros; apply Hall; by right|].
      exists st'. auto.
    + rewrite (visit_reject _ _ _ Hna Hr). simpl.
      destruct (IH (set_next_level (next_level st ++ [c])
                      (set_reject_count (reject_count st + 1) st)))
        as (st' & -> & Hh & Hn); [intros; apply Hall; by right|].
      exists st'. split_and!; [done|done|].
      intros c' [[?| ->%list_elem_of_singleton ]%elem_of_app|?]%Hn; auto.
Qed.

Lemma while_loop_safe (a : Automata) (k : Z) (fuel : nat) (st : Locals)
    (e : PyError) :
  tree st ≠ [] → safe a st → while_loop fuel a k st ≠ Some (Raise e).
Proof.
  revert st. induction fuel as [|fuel IH]; intros st Hne Hsafe; [done|].
  simpl. case_bool_decide; [|done].
  unfold iteration.
  destruct (last (tree st)) as [cur|] eqn:Hlast;
    [|by apply last_None in Hlast].
  assert (∃ st1, for_configs a cur (set_next_level [] st) = Return st1
                 ∧ (is_Some (new_head st1)
                    ∨ ∀ c, c ∈ next_level st1 → ¬ live a c))
    as (st1 & -> & Hst1).
  { destruct Hsafe as [Hb|Hhalt].
    - destruct (for_configs_bound a cur (set_next_level [] st) Hb)
        as (st1 & ? & ?). eauto.
    - destruct (for_configs_halted a cur (set_next_level [] st))
        as (st1 & ? & _ & Hn); [by eauto|].
      exists st1. split; [done|]. right.
      intros c [[]%elem_of_nil|?]%Hn. done. }
  simpl. destruct (next_level st1) as [|c0 nl] eqn:Hnl; [done|].
  apply IH; simpl.
  - by destruct (tree st1).
  - destruct Hst1 as [?|Hhalt]; [by left|right].
    intros cur' c. simpl. rewrite last_snoc. intros [= <-]. apply Hhalt.
Qed.

(** The first rule selected for the start configuration decides. *)
Lemma for_transitions_unbound (ts : list Transition) (q : string)
    (tape : list string) (head : nat) (st : Locals) :
  new_head st = None →
  match selected ts q tape head with
  | [] => for_transitions ts q tape head st = Return st
  | t :: _ =>
      (known_move t ∧
       ∃ st', for_transitions ts q tape head st = Return st'
              ∧ is_Some (new_head st'))
      ∨ (¬ known_move t ∧
         for_transitions ts q tape head st = Raise UnboundLocalError)
  end.
Proof.
  intros Hnone. induction ts as [|t ts IH]; simpl; [done|].
  unfold selected in *. rewrite filter_cons.
  destruct (matches t q tape head) eqn:Hm.
  - rewrite decide_True by done.
    destruct (decide (known_move t)) as [Hk|Hk].
    + left. split; [done|].
      destruct (apply_transition_known t tape head st Hk) as [st1 H1].
      rewrite H1. simpl.
      apply for_transitions_bound.
      apply apply_transition_Return in H1 as (? & ? & _ & ->). simpl. eauto.
    + right. split; [done|].
      unfold apply_transition, successor, move_head. simpl. rewrite Hnone.
      unfold known_move in Hk.
      rewrite !bool_decide_eq_false_2 by tauto. done.
  - rewrite decide_False by done. apply IH.
Qed.

Lemma simulate_ntm_Raise (a : Automata) (s : string) (ms : option Z)
    (e : PyError) :
  simulate_ntm a s ms = Some (Raise e) ↔
  e = UnboundLocalError
  ∧ (1 ≤ default default_max_steps ms)%Z
  ∧ first_rule_unknown a s.
Proof.
  unfold first_rule_unknown, simulate_ntm, simulate_ntm_fuel.
  set (k := default default_max_steps ms).
  cbn [while_loop].
  change (Z.of_nat (depth (initial_locals a s))) with 0%Z.
  destruct (decide (0 < k)%Z) as [Hk|Hk].
  2:{ rewrite bool_decide_eq_false_2 by done. split; [done|]. lia. }
  rewrite bool_decide_eq_true_2 by done.
  destruct (decide (live a (initial_config a s))) as [Hlive|Hdead].
  2:{ (* the start state halts: nothing is ever applied *)
    assert (safe a (initial_locals a s)) as Hsafe.
    { right. intros cur c [= <-] ->%list_elem_of_singleton. exact Hdead. }
    pose proof (while_loop_safe a k (S (Z.to_nat k)) (initial_locals a s) e
                  ltac:(done) Hsafe) as Hno.
    cbn [while_loop] in Hno.
    change (Z.of_nat (depth (initial_locals a s))) with 0%Z in Hno.
    rewrite bool_decide_eq_true_2 in Hno by done.
    split.
    - intros Hr. exfalso. apply Hno.
      destruct (iteration a (initial_locals a s)) as [[st'|st']|e'];
        [|done|by simplify_eq].
      by destruct (while_loop _ _ _ _) as [[?|?]|]; simplify_eq.
    - intros (_ & _ & Hna & Hnr & _). exfalso. apply Hdead. by split. }
  pose proof Hlive as [Hna Hnr]. simpl in Hna, Hnr.
  unfold iteration. simpl last. cbn [for_configs].
  rewrite (visit_live _ _ _ Hlive).
  assert (tape_of (initial_config a s) = list_of_str s) as ->.
  { unfold tape_of, initial_config. simpl.
    change ("" +:+ join (list_of_str s)) with (join (list_of_str s)).
    by rewrite join_list_of_str. }
  change (head_of (initial_config a s)) with 0.
  change (state (initial_config a s)) with (start_state a).
  pose proof (for_transitions_unbound (transitions a) (start_state a)
                (list_of_str s) 0
                (set_next_level [] (initial_locals a s)) eq_refl) as Hfirst.
  destruct (selected _ _ _ _) as [|t rest].
  - rewrite Hfirst. simpl. split; [done|].
    by intros (_ & _ & _ & _ & ? & ? & ? & _).
  - destruct Hfirst as [(Hknown & st' & -> & Hb)|(Hunk & ->)].
    + simpl. split; [|by intros (_ & _ & _ & _ & ? & ? & [= <- <-] & ?)].
      intros Hr. exfalso.
      destruct (next_level st') as [|c0 nl] eqn:Hnl; [done|].
      destruct (while_loop _ _ _ _) as [[fin|e']|] eqn:Hloop; [done| |done].
      apply while_loop_safe in Hloop; [done| |by left].
      simpl. by destruct (tree st').
    + simpl. split.
      * intros [= <-]. split_and!; [done|lia|done|done|]. eauto.
      * by intros (-> & _).
Qed.

(** X13. The call raises in one case only, and then [UnboundLocalError]: the
    bound is at least 1, the start state is neither the accept nor the
    reject state, and the first rule of the table that line 91 selects for
    the initial configuration has a move other than R, L and S. *)
Theorem simulate_ntm_raises_iff (a : Automata) (s : string) (ms : option Z)
    (e : PyError) :
  simulate_ntm a s ms = Some (Raise e) ↔
  e = UnboundLocalError
  ∧ (1 ≤ default default_max_steps ms)%Z
  ∧ start_state a ≠ accept_state a
  ∧ start_state a ≠ reject_state a
  ∧ ∃ t rest,
      selected (transitions a) (start_state a) (list_of_str s) 0 = t :: rest
      ∧ ¬ known_move t.
Proof. apply simulate_ntm_Raise. Qed.

(** ** The head and the length of the tape *)

Lemma str_length_app (s1 s2 : string) :
  String.length (s1 +:+ s2) = String.length s1 + String.length s2.
Proof.
  by rewrite <- !length_list_of_str, list_of_str_app, length_app.
Qed.

Lemma str_snoc_cases (l : string) :
  l = "" ∨ ∃ l0 x, l = l0 +:+ String x "".
Proof.
  induction l as [|c l IH]; [by left|right].
  destruct IH as [ -> |(l0 & x & ->)].
  - by exists "", c.
  - by exists (String c l0), x.
Qed.

Lemma successor_right_nonempty (t : Transition) (c c' : Config)
    (stale : option Z) (h : Z) :
  known_move t →
  (head_move t = "S" → tape_write t ≠ "") →
  successor t (tape_of c) (head_of c) stale = Return (c', h) →
  right_of_head c' ≠ "".
Proof.
  unfold tape_of, head_of. intros [HR|[HL|HS]] Hw.
  - rewrite (successor_R _ _ _ _ HR). intros [= <- _]. simpl.
    by destruct (after_head (right_of_head c)).
  - destruct (successor_L t (left_of_head c) (right_of_head c)
                stale HL) as [Hempty Hsnoc].
    destruct (str_snoc_cases (left_of_head c)) as [Hl|(l0 & x & Hl)].
    + rewrite (Hempty Hl). by intros [= <- _].
    + rewrite (Hsnoc _ _ Hl). by intros [= <- _].
  - rewrite (successor_S _ _ _ _ HS). intros [= <- _]. simpl.
    specialize (Hw HS). by destruct (tape_write t).
Qed.

Lemma reachable_right_nonempty (a : Automata) (s : string) (c : Config) :
  well_formed a →
  Forall (λ t, tape_write t ≠ "") (transitions a) →
  s ≠ "" →
  reachable a s c → right_of_head c ≠ "".
Proof.
  intros Hwf Hw Hs. rewrite Forall_forall in Hw.
  unfold well_formed in Hwf. rewrite Forall_forall in Hwf.
  induction 1 as [|c c' _ _ (_ & t & Ht & _ & stale & h & Hsucc)].
  - simpl. by rewrite join_list_of_str.
  - eapply successor_right_nonempty; eauto.
Qed.

(** X14. When the move symbols are all known, no rule writes the empty
    string and the input is not empty, the head of every configuration of
    the trace is on a cell: the out-of-bounds branch of line 91 is never
    taken. *)
Theorem head_on_a_cell (a : Automata) (s : string) (ms : option Z)
    (out : list Line) (level : list Config) (c : Config) :
  well_formed a →
  Forall (λ t, tape_write t ≠ "") (transitions a) →
  s ≠ "" →
  simulate_ntm a s ms = Some (Return out) →
  level ∈ levels out → c ∈ level →
  right_of_head c ≠ "".
Proof.
  intros Hwf Hw Hs Hrun Hlevel Hc.
  eapply reachable_right_nonempty; [done..|].
  by eapply levels_reachable.
Qed.

Lemma head_on_a_cell_witness : right_of_head (mkConfig "" "q" "a") ≠ "".
Proof.
  apply (head_on_a_cell late_sibling "a" None late_sibling_output
           [mkConfig "" "q" "a"] (mkConfig "" "q" "a")).
  - exact late_sibling_well_formed.
  - simpl. repeat constructor; discriminate.
  - discriminate.
  - exact late_sibling_on_a.
  - unfold levels, late_sibling_output. simpl. rewrite !elem_of_cons. auto.
  - apply list_elem_of_here.
Defined.

(** X15. A rule that writes one character never shortens the tape and
    lengthens it by at most two cells, and by at most one when the head was
    on a cell. *)
Theorem tape_never_shrinks (t : Transition) (c c' : Config)
    (stale : option Z) (h : Z) :
  String.length (tape_write t) = 1 →
  successor t (tape_of c) (head_of c) stale = Return (c', h) →
  String.length (left_of_head c +:+ right_of_head c)
  ≤ String.length (left_of_head c' +:+ right_of_head c')
  ≤ String.length (left_of_head c +:+ right_of_head c) + 2
  ∧ (right_of_head c ≠ "" →
     String.length (left_of_head c' +:+ right_of_head c')
     ≤ String.length (left_of_head c +:+ right_of_head c) + 1).
Proof.
  unfold tape_of, head_of.
  intros Hw (h0 & tape' & _ & Hfit & ->)%successor_Return.
  apply fit_bounds_join in Hfit
    as (_ & pre & post & Hpre & Hpost & Hone & Hjoin).
  specialize (Hone (write_cell_nonempty _ _ _)).
  rewrite write_cell_join in Hjoin.
  cbn [left_of_head right_of_head].
  rewrite join_take_drop, Hjoin, !str_length_app, Hw.
  assert (String.length pre + String.length post ≤ 1) as Hedge.
  { destruct Hone as [ -> | -> ]; simpl.
    - destruct Hpost as [ -> | -> ]; simpl; lia.
    - destruct Hpre as [ -> | -> ]; simpl; lia. }
  destruct (right_of_head c) as [|x r]; simpl; split; try lia;
    intros Hr; first [done|lia].
Qed.

Lemma tape_never_shrinks_witness :
  String.length ("" +:+ "bc") ≤ String.length ("" +:+ "_xc")
  ≤ String.length ("" +:+ "bc") + 2
  ∧ ("bc" ≠ "" →
     String.length ("" +:+ "_xc") ≤ String.length ("" +:+ "bc") + 1).
Proof.
  apply (tape_never_shrinks (mkTransition "p" "b" "q" "x" "L")
           (mkConfig "" "p" "bc") (mkConfig "" "q" "_xc") None 0%Z).
  - reflexivity.
  - vm_compute. reflexivity.
Defined.

(** ** [main] *)

Lemma str_app_cons (c : Ascii.ascii) (s1 s2 : string) :
  String c s1 +:+ s2 = String c (s1 +:+ s2).
Proof. done. Qed.

Lemma lstrip_blank (ws s : string) :
  blank ws = true → lstrip (ws +:+ s) = lstrip s.
Proof.
  induction ws as [|c ws IH]; [done|]. simpl.
  intros [Hc Hws]%andb_true_iff. rewrite Hc. auto.
Qed.

Lemma rstrip_blank_only (ws : string) : blank ws = true → rstrip ws = "".
Proof.
  induction ws as [|c ws IH]; [done|]. simpl.
  intros [Hc Hws]%andb_true_iff. by rewrite (IH Hws), Hc.
Qed.

Lemma rstrip_blank (s ws : string) :
  blank ws = true → rstrip (s +:+ ws) = rstrip s.
Proof.
  intros Hws. induction s as [|c s IH].
  - by apply rstrip_blank_only.
  - rewrite str_app_cons. simpl. by rewrite IH.
Qed.

Lemma strip_blank_r (s ws : string) :
  blank ws = true → strip (s +:+ ws) = strip s.
Proof.
  intros Hws. unfold strip. induction s as [|c s IH].
  - change ("" +:+ ws) with ws. rewrite <- (str_app_nil_r ws).
    rewrite (lstrip_blank ws "" Hws). done.
  - rewrite str_app_cons. simpl. destruct (is_space c); [done|].
    rewrite <- str_app_cons. by apply rstrip_blank.
Qed.

(** X16. [main] runs the machine on the text of the string file without the
    white space around it: a trailing newline or leading blanks change
    nothing. *)
Theorem main_ignores_surrounding_whitespace (reader : list (list string))
    (ws1 s ws2 : string) :
  blank ws1 = true → blank ws2 = true →
  main reader (ws1 +:+ s +:+ ws2) = main reader s.
Proof.
  intros H1 H2. unfold main.
  assert (strip (ws1 +:+ s +:+ ws2) = strip s) as ->; [|done].
  rewrite <- (strip_blank_r s ws2 H2). unfold strip.
  by rewrite lstrip_blank.
Qed.

Lemma main_ignores_surrounding_whitespace_witness :
  main [["m"]; ["start"; "accept"]; ["a"]; ["a"; "_"]; ["start"]; ["accept"];
        ["reject"]; ["start"; "a"; "accept"; "a"; "S"]]
    (" " +:+ "a" +:+ String (Ascii.ascii_of_nat 10) "")
  = main [["m"]; ["start"; "accept"]; ["a"]; ["a"; "_"]; ["start"];
          ["accept"]; ["reject"]; ["start"; "a"; "accept"; "a"; "S"]]
      "a".
Proof.
  apply (main_ignores_surrounding_whitespace _ " " "a"
           (String (Ascii.ascii_of_nat 10) "")).
  - reflexivity.
  - reflexivity.
Defined.
